(** * KawaiiMiao renderer: scheduler, sampler and Lambertian material

    A shallow embedding of
    - [Tool/Parallel.h]: the [AParallelUtils] work scheduler,
    - the member functions of [Sampler] and [RandomSampler] (they
      follow the [Scene] class in [Core/Scene.h]),
    - [Materials/LambertianMaterial.cpp],
    followed by the properties established about them. *)

From Stdlib Require Import ZArith Lia List Bool.
From stdpp Require Import base tactics option list list_numbers sorting.

Local Open Scope Z_scope.

(** ** Machine integers *)

(** [size_t] is a 64-bit unsigned integer; arithmetic on it wraps. *)
Definition SIZE_MOD : Z := 2 ^ 64.
Definition to_size_t (z : Z) : Z := z mod SIZE_MOD.

(** [int] is a 32-bit two's complement integer.  Conversions into it
    (and, on the targets the renderer builds for, overflowing results)
    keep the low 32 bits. *)
Definition INT_MOD : Z := 2 ^ 32.
Definition INT_MAX : Z := 2 ^ 31 - 1.
Definition to_int (z : Z) : Z := (z + 2 ^ 31) mod INT_MOD - 2 ^ 31.

(** [unsigned]: 32 bits, wrapping. *)
Definition to_unsigned (z : Z) : Z := z mod INT_MOD.

(** ** Tool/Parallel.h *)

Module Parallel.

(** [enum class ExecutionPolicy { SERIAL, PARALLEL }] *)
Inductive ExecutionPolicy : Set := SERIAL | PARALLEL.

(** [inline int numSystemCores() { return glm::max(1u, std::thread::hardware_concurrency()); }]
    The hardware query is external; its answer [hw] is an argument. *)
Definition numSystemCores (hw : Z) : Z :=
  to_int (Z.max 1 (to_unsigned hw)).

(** Who runs a callback: the thread that called the scheduler, or the
    [j]-th thread pushed on the [threads] vector. *)
Inductive Thread : Set :=
  | Caller
  | Worker (j : nat).

(** One invocation [func(index)] of the callback. *)
Definition Call : Set := (Thread * Z)%type.

Definition call_index (c : Call) : Z := snd c.

(** What a scheduler call amounts to: it trips an assertion, it returns
    after the listed callback invocations, or (for a schedule that stops
    before every worker has left its loop) it is still waiting in
    [join] with the listed invocations made so far. *)
Inductive Outcome : Set :=
  | Aborted
  | Returned (calls : list Call)
  | Joining (calls : list Call).

Definition calls_of (o : Outcome) : list Call :=
  match o with
  | Aborted => []
  | Returned calls => calls
  | Joining calls => calls
  end.

(** *** The static split: [AParallelUtils::parallel_for] *)

(** [DCHECK(c)] aborts when debug checks are compiled in ([dchecks]) and
    [c] is false; otherwise it does nothing. *)
Definition DCHECK_fails (dchecks : bool) (c : bool) : bool := dchecks && negb c.

Section static_split.
(** [n_threads] and [n_task] as computed at the top of the function. *)
Variable n_threads : Z.
Variable n_task : Z.

(** [(n_task / n_threads) + (n_task % n_threads == 0 ? 0 : 1)],
    computed in [size_t] and stored in an [int]. *)
Definition n_max_tasks_per_thread : Z :=
  to_int (to_size_t (n_task / to_size_t n_threads
                     + (if n_task mod to_size_t n_threads =? 0 then 0 else 1))).

(** [n_max_tasks_per_thread * n_threads - n_task]: an [int] product,
    a [size_t] difference, stored in an [int]. *)
Definition n_lacking_tasks : Z :=
  to_int (to_size_t (to_size_t (to_int (n_max_tasks_per_thread * n_threads)) - n_task)).

(** [thread_index - n_threads + n_lacking_tasks] *)
Definition lacking_offset (thread_index : Z) : Z :=
  to_int (to_int (thread_index - n_threads) + n_lacking_tasks).

(** [std::max(thread_index - n_threads + n_lacking_tasks, 0)] *)
Definition n_lacking_tasks_so_far (thread_index : Z) : Z :=
  Z.max (lacking_offset thread_index) 0.

Definition inclusive_start_index (thread_index : Z) : Z :=
  to_int (to_int (thread_index * n_max_tasks_per_thread)
          - n_lacking_tasks_so_far thread_index).

Definition exclusive_end_index (thread_index : Z) : Z :=
  to_int (to_int (inclusive_start_index thread_index + n_max_tasks_per_thread)
          - (if 0 <=? lacking_offset thread_index then 1 else 0)).

(** The body of the [inner_loop] lambda:
    [for (int k = inclusive_start_index; k < exclusive_end_index; ++k) function(k);] *)
Definition inner_loop (thread_index : Z) : list Z :=
  seqZ (inclusive_start_index thread_index)
       (exclusive_end_index thread_index - inclusive_start_index thread_index).

(** The chunks handed to threads [0 .. n_threads-1], in the order of
    the [threads] vector. *)
Definition chunks : list (list Z) :=
  inner_loop <$> seqZ 0 n_threads.
End static_split.

(** [parallel_for(start, end, function)]: [None] when the [DCHECK]
    fails, otherwise the indices each of the [T] threads passes to
    [function], thread by thread. *)
Definition parallel_for (dchecks : bool) (T : Z) (start end_ : Z)
  : option (list (list Z)) :=
  if DCHECK_fails dchecks (start <? end_) then None
  else
    let n_threads := T in
    let n_task := to_size_t (end_ - start) in
    Some (chunks n_threads n_task).

(** *** The atomic seize: [AParallelUtils::parallel_for_seize] *)

(** Shared state while the workers run: the atomic cursor, which
    workers are still inside their [while] loop, and the callback
    invocations made so far (oldest first). *)
Record SeizeState : Set := mkSeize {
  task_index : Z;
  running : list bool;
  calls : list Call
}.

(** One turn of worker [j] in
    [while ((index = task_index.fetch_add(1)) < end) func(index);]
    The fetch-and-add is one atomic step on the [size_t] cursor; the
    worker then either calls [func(index)] or leaves the loop.  A worker
    that has left the loop (or does not exist) takes no step. *)
Definition seize_step (end_ : Z) (s : SeizeState) (j : nat) : SeizeState :=
  match running s !! j with
  | Some true =>
      let index := task_index s in
      let next := to_size_t (index + 1) in
      if index <? end_
      then mkSeize next (running s) (calls s ++ [(Worker j, index)])
      else mkSeize next (<[j := false]> (running s)) (calls s)
  | _ => s
  end.

(** A schedule lists which worker takes the next turn.  The [T] threads
    are created one after another and run as soon as they exist; a
    thread not yet created is a worker that has not had a turn yet, so
    every real interleaving is a schedule.  Which index a callback
    invocation receives is settled by the worker's fetch, so the
    invocations are recorded in the order of the fetches. *)
Definition seize_run (end_ : Z) (sched : list nat) (s : SeizeState) : SeizeState :=
  foldl (seize_step end_) s sched.

Definition seize_init (T : Z) (start : Z) : SeizeState :=
  mkSeize start (replicate (Z.to_nat T) true) [].

(** All [join]s return once no worker is left running. *)
Definition all_joined (s : SeizeState) : bool := forallb negb (running s).

Definition parallel_for_seize (dchecks : bool) (T : Z) (start end_ : Z)
    (sched : list nat) : Outcome :=
  if DCHECK_fails dchecks (start <? end_) then Aborted
  else
    let s := seize_run end_ sched (seize_init T start) in
    if all_joined s then Returned (calls s) else Joining (calls s).

(** *** The public entry point: [AParallelUtils::parallelFor] *)

(** [for (auto i = start; i < end; ++i) func(i);] on the calling thread. *)
Definition serial_loop (start end_ : Z) : list Call :=
  (fun i => (Caller, i)) <$> seqZ start (end_ - start).

Definition parallelFor (dchecks : bool) (T : Z) (start end_ : Z)
    (policy : ExecutionPolicy) (sched : list nat) : Outcome :=
  if end_ <? start then Returned []
  else match policy with
       | PARALLEL => parallel_for_seize dchecks T start end_ sched
       | SERIAL => Returned (serial_loop start end_)
       end.

End Parallel.

(** ** [Sampler] and [RandomSampler] *)

Module SamplerModel.

(** The pieces of the renderer that the sampler uses but that live in
    other files: the [Float] type, the random number generator held in
    [m_rng], and the virtual [roundCount]. *)
Class SamplerDeps (Float Rng : Type) : Type := {
  (** a value-initialised [Float] / [Vector2f] component *)
  float_zero : Float;
  (** [Rng(seed)], as used by the constructor's [m_rng(seed)] *)
  rng_seeded : Z -> Rng;
  (** [m_rng.setSequence(seed)] *)
  setSequence : Z -> Rng -> Rng;
  (** [m_rng.uniformFloat()]: the value drawn and the advanced generator *)
  uniformFloat : Rng -> Float * Rng;
  (** [Sampler::roundCount(n)] *)
  roundCount : Z -> Z
}.

(** The result of a member function that carries [CHECK_*] assertions:
    it completes, a check fails (the process is aborted), or it reads a
    [std::vector] out of range. *)
Inductive Checked (A : Type) : Type :=
  | Done (a : A)
  | Fatal
  | Undefined.
Arguments Done {A} a.
Arguments Fatal {A}.
Arguments Undefined {A}.

Definition Vector2i : Set := (Z * Z)%type.

(** The address [&buffers[view_array][view_first]] returned by
    [get1DArray] / [get2DArray]. *)
Record ArrayView : Set := mkView {
  view_array : nat;
  view_first : Z
}.

Section sampler.
Context {Float Rng : Type} `{!SamplerDeps Float Rng}.

Definition Vector2f : Type := (Float * Float)%type.

Record Sampler : Type := mkSampler {
  samplesPerPixel : Z;
  m_currentPixel : Vector2i;
  m_currentPixelSampleIndex : Z;
  m_array1DOffset : nat;
  m_array2DOffset : nat;
  m_samples1DArraySizes : list Z;
  m_samples2DArraySizes : list Z;
  m_sampleArray1D : list (list Float);
  m_sampleArray2D : list (list Vector2f)
}.

(** [Sampler::Sampler(int64_t samplesPerPixel)] initialises
    [samplesPerPixel] only; the four registries start empty and the
    scalar members hold whatever [uninit] they are created with. *)
Definition Sampler_new (spp : Z) (uninit : Vector2i * Z * nat * nat) : Sampler :=
  let '(p, i, o1, o2) := uninit in
  mkSampler spp p i o1 o2 [] [] [] [].

Definition set_cursor (s : Sampler) (p : Vector2i) (i : Z) : Sampler :=
  mkSampler (samplesPerPixel s) p i 0%nat 0%nat
            (m_samples1DArraySizes s) (m_samples2DArraySizes s)
            (m_sampleArray1D s) (m_sampleArray2D s).

(** [void Sampler::startPixel(const Vector2i& p)] *)
Definition startPixel (p : Vector2i) (s : Sampler) : Sampler :=
  set_cursor s p 0.

(** [bool Sampler::startNextSample()].  The index is an [int64_t];
    incrementing it past its largest value has no defined behaviour,
    so the increment is the mathematical one. *)
Definition startNextSample (s : Sampler) : bool * Sampler :=
  let i := m_currentPixelSampleIndex s + 1 in
  (i <? samplesPerPixel s, set_cursor s (m_currentPixel s) i).

(** [bool Sampler::setSampleNumber(int64_t sampleNum)] *)
Definition setSampleNumber (sampleNum : Z) (s : Sampler) : bool * Sampler :=
  (sampleNum <? samplesPerPixel s, set_cursor s (m_currentPixel s) sampleNum).

(** [std::vector<T>(n * samplesPerPixel)]: a negative count converts to
    a size no allocation can satisfy. *)
Definition new_buffer {T : Type} (zero : T) (count : Z) : Checked (list T) :=
  if count <? 0 then Fatal else Done (replicate (Z.to_nat count) zero).

(** [void Sampler::request1DArray(int n)] *)
Definition request1DArray (n : Z) (s : Sampler) : Checked Sampler :=
  if negb (roundCount n =? n) then Fatal
  else match new_buffer float_zero (n * samplesPerPixel s) with
       | Done buf =>
           Done (mkSampler (samplesPerPixel s) (m_currentPixel s)
                   (m_currentPixelSampleIndex s)
                   (m_array1DOffset s) (m_array2DOffset s)
                   (m_samples1DArraySizes s ++ [n]) (m_samples2DArraySizes s)
                   (m_sampleArray1D s ++ [buf]) (m_sampleArray2D s))
       | Fatal => Fatal
       | Undefined => Undefined
       end.

(** [void Sampler::request2DArray(int n)] *)
Definition request2DArray (n : Z) (s : Sampler) : Checked Sampler :=
  if negb (roundCount n =? n) then Fatal
  else match new_buffer (float_zero, float_zero) (n * samplesPerPixel s) with
       | Done buf =>
           Done (mkSampler (samplesPerPixel s) (m_currentPixel s)
                   (m_currentPixelSampleIndex s)
                   (m_array1DOffset s) (m_array2DOffset s)
                   (m_samples1DArraySizes s) (m_samples2DArraySizes s ++ [n])
                   (m_sampleArray1D s) (m_sampleArray2D s ++ [buf]))
       | Fatal => Fatal
       | Undefined => Undefined
       end.

(** [&buffers[offset][index]]: the address of element [index] of the
    buffer at [offset].  Indexing a vector out of its range is
    undefined; the one case with a known result is an empty buffer
    indexed at 0, where the address is the vector's storage pointer,
    and an empty vector has none: the address is [nullptr]. *)
Definition element_address {T : Type} (buffers : list (list T)) (offset : nat)
    (index : Z) : Checked (option ArrayView) :=
  match buffers !! offset with
  | None => Undefined
  | Some buf =>
      if (0 <=? index) && (index <? Z.of_nat (length buf))
      then Done (Some (mkView offset index))
      else if (index =? 0) && (Z.of_nat (length buf) =? 0) then Done None
      else Undefined
  end.

(** [const Float* Sampler::get1DArray(int n)]; [None] is [nullptr]. *)
Definition get1DArray (n : Z) (s : Sampler) : Checked (option ArrayView * Sampler) :=
  if decide (m_array1DOffset s = length (m_sampleArray1D s)) then Done (None, s)
  else match m_samples1DArraySizes s !! m_array1DOffset s with
       | None => Undefined
       | Some size =>
           if negb (size =? n) then Fatal
           else if negb (m_currentPixelSampleIndex s <? samplesPerPixel s) then Fatal
           else match element_address (m_sampleArray1D s) (m_array1DOffset s)
                        (m_currentPixelSampleIndex s * n) with
                | Done address =>
                    Done (address,
                          mkSampler (samplesPerPixel s) (m_currentPixel s)
                            (m_currentPixelSampleIndex s)
                            (S (m_array1DOffset s)) (m_array2DOffset s)
                            (m_samples1DArraySizes s) (m_samples2DArraySizes s)
                            (m_sampleArray1D s) (m_sampleArray2D s))
                | Fatal => Fatal
                | Undefined => Undefined
                end
       end.

(** [const Vector2f* Sampler::get2DArray(int n)] *)
Definition get2DArray (n : Z) (s : Sampler) : Checked (option ArrayView * Sampler) :=
  if decide (m_array2DOffset s = length (m_sampleArray2D s)) then Done (None, s)
  else match m_samples2DArraySizes s !! m_array2DOffset s with
       | None => Undefined
       | Some size =>
           if negb (size =? n) then Fatal
           else if negb (m_currentPixelSampleIndex s <? samplesPerPixel s) then Fatal
           else match element_address (m_sampleArray2D s) (m_array2DOffset s)
                        (m_currentPixelSampleIndex s * n) with
                | Done address =>
                    Done (address,
                          mkSampler (samplesPerPixel s) (m_currentPixel s)
                            (m_currentPixelSampleIndex s)
                            (m_array1DOffset s) (S (m_array2DOffset s))
                            (m_samples1DArraySizes s) (m_samples2DArraySizes s)
                            (m_sampleArray1D s) (m_sampleArray2D s))
                | Fatal => Fatal
                | Undefined => Undefined
                end
       end.

(** The [n] elements a caller reads through a returned pointer;
    [None] when one of them lies outside the buffer. *)
Definition read_view {T : Type} (buffers : list (list T)) (v : ArrayView) (n : Z)
  : option (list T) :=
  match buffers !! view_array v with
  | Some buf =>
      if (0 <=? view_first v) && (0 <=? n)
         && (view_first v + n <=? Z.of_nat (length buf))
      then Some (take (Z.to_nat n) (drop (Z.to_nat (view_first v)) buf))
      else None
  | None => None
  end.

(** *** [RandomSampler] *)

Record RandomSampler : Type := mkRandomSampler {
  base : Sampler;
  m_rng : Rng
}.

(** [RandomSampler::RandomSampler(int ns, int seed) : Sampler(ns), m_rng(seed)] *)
Definition RandomSampler_new (ns seed : Z) (uninit : Vector2i * Z * nat * nat)
  : RandomSampler :=
  mkRandomSampler (Sampler_new ns uninit) (rng_seeded seed).

(** [Float RandomSampler::get1D()] *)
Definition get1D (rs : RandomSampler) : Checked (Float * RandomSampler) :=
  if negb (m_currentPixelSampleIndex (base rs) <? samplesPerPixel (base rs)) then Fatal
  else let '(x, r) := uniformFloat (m_rng rs) in
       Done (x, mkRandomSampler (base rs) r).

(** [Vector2f RandomSampler::get2D()]; the braced initialiser draws
    the first component first. *)
Definition draw2 (r : Rng) : Vector2f * Rng :=
  let '(x, r1) := uniformFloat r in
  let '(y, r2) := uniformFloat r1 in
  ((x, y), r2).

Definition get2D (rs : RandomSampler) : Checked (Vector2f * RandomSampler) :=
  if negb (m_currentPixelSampleIndex (base rs) <? samplesPerPixel (base rs)) then Fatal
  else let '(v, r) := draw2 (m_rng rs) in
       Done (v, mkRandomSampler (base rs) r).

(** [std::unique_ptr<Sampler> RandomSampler::clone(int seed)]: the
    copy constructor duplicates every member, buffers included. *)
Definition clone (seed : Z) (rs : RandomSampler) : RandomSampler :=
  mkRandomSampler (base rs) (setSequence seed (m_rng rs)).

(** [for (j = 0; j < buf.size(); ++j) buf[j] = draw();] *)
Fixpoint refill {T : Type} (draw : Rng -> T * Rng) (buf : list T) (r : Rng)
  : list T * Rng :=
  match buf with
  | [] => ([], r)
  | _ :: rest =>
      let '(x, r1) := draw r in
      let '(rest', r2) := refill draw rest r1 in
      (x :: rest', r2)
  end.

(** [for (i = 0; i < buffers.size(); ++i) <refill buffers[i]>] *)
Fixpoint refill_all {T : Type} (draw : Rng -> T * Rng) (buffers : list (list T))
    (r : Rng) : list (list T) * Rng :=
  match buffers with
  | [] => ([], r)
  | buf :: rest =>
      let '(buf', r1) := refill draw buf r in
      let '(rest', r2) := refill_all draw rest r1 in
      (buf' :: rest', r2)
  end.

(** [void RandomSampler::startPixel(const Vector2i& p)] *)
Definition RandomSampler_startPixel (p : Vector2i) (rs : RandomSampler)
  : RandomSampler :=
  let s := base rs in
  let '(a1, r1) := refill_all uniformFloat (m_sampleArray1D s) (m_rng rs) in
  let '(a2, r2) := refill_all draw2 (m_sampleArray2D s) r1 in
  mkRandomSampler
    (startPixel p
       (mkSampler (samplesPerPixel s) (m_currentPixel s)
          (m_currentPixelSampleIndex s) (m_array1DOffset s) (m_array2DOffset s)
          (m_samples1DArraySizes s) (m_samples2DArraySizes s) a1 a2))
    r2.

(** *** Driving a sampler *)

(** The calls a renderer makes on a sampler, and what each hands back. *)
Inductive Request : Set :=
  | RStartPixel (p : Vector2i)
  | RStartNextSample
  | RSetSampleNumber (n : Z)
  | RGet1D
  | RGet2D
  | RGet1DArray (n : Z)
  | RGet2DArray (n : Z).

Inductive Reply : Type :=
  | ReplyVoid
  | ReplyBool (b : bool)
  | ReplyFloat (x : Float)
  | ReplyVector2f (v : Vector2f)
  | Reply1DArray (contents : option (list Float))
  | Reply2DArray (contents : option (list Vector2f))
  | ReplyAbort
  | ReplyUndefined.

Definition lift_base (rs : RandomSampler) (s : Sampler) : RandomSampler :=
  mkRandomSampler s (m_rng rs).

(** One call; [None] for the next state when the call did not return. *)
Definition serve (q : Request) (rs : RandomSampler) : Reply * option RandomSampler :=
  match q with
  | RStartPixel p => (ReplyVoid, Some (RandomSampler_startPixel p rs))
  | RStartNextSample =>
      let '(b, s) := startNextSample (base rs) in (ReplyBool b, Some (lift_base rs s))
  | RSetSampleNumber n =>
      let '(b, s) := setSampleNumber n (base rs) in (ReplyBool b, Some (lift_base rs s))
  | RGet1D =>
      match get1D rs with
      | Done (x, rs') => (ReplyFloat x, Some rs')
      | Fatal => (ReplyAbort, None)
      | Undefined => (ReplyUndefined, None)
      end
  | RGet2D =>
      match get2D rs with
      | Done (v, rs') => (ReplyVector2f v, Some rs')
      | Fatal => (ReplyAbort, None)
      | Undefined => (ReplyUndefined, None)
      end
  | RGet1DArray n =>
      match get1DArray n (base rs) with
      | Done (None, s) => (Reply1DArray None, Some (lift_base rs s))
      | Done (Some v, s) =>
          match read_view (m_sampleArray1D s) v n with
          | Some contents => (Reply1DArray (Some contents), Some (lift_base rs s))
          | None => (ReplyUndefined, None)
          end
      | Fatal => (ReplyAbort, None)
      | Undefined => (ReplyUndefined, None)
      end
  | RGet2DArray n =>
      match get2DArray n (base rs) with
      | Done (None, s) => (Reply2DArray None, Some (lift_base rs s))
      | Done (Some v, s) =>
          match read_view (m_sampleArray2D s) v n with
          | Some contents => (Reply2DArray (Some contents), Some (lift_base rs s))
          | None => (ReplyUndefined, None)
          end
      | Fatal => (ReplyAbort, None)
      | Undefined => (ReplyUndefined, None)
      end
  end.

(** A whole sequence of calls; it stops at the first one that does
    not return. *)
Fixpoint drive (qs : list Request) (rs : RandomSampler) : list Reply :=
  match qs with
  | [] => []
  | q :: rest =>
      match serve q rs with
      | (a, Some rs') => a :: drive rest rs'
      | (a, None) => [a]
      end
  end.

End sampler.

Arguments Sampler : clear implicits.
Arguments RandomSampler : clear implicits.
Arguments Reply : clear implicits.

End SamplerModel.

(** ** Materials/LambertianMaterial.cpp *)

Module Lambertian.

(** [enum class TransportMode] *)
Inductive TransportMode : Set := Radiance | Importance.

Section material.
(** [Spectrum] with its [isBlack] test, and the part of a
    [SurfaceInteraction] a [BSDF] is built from. *)
Context {Spectrum Geometry : Type}.
Variable isBlack : Spectrum -> bool.

(** What lives in a [MemoryArena]; addresses are positions. *)
Inductive ArenaObject : Type :=
  | ObjBSDF (geometry : Geometry) (bxdfs : list nat)
  | ObjLambertianReflection (R : Spectrum).

Definition MemoryArena : Type := list ArenaObject.

(** Modelled from the spec: [ARENA_ALLOC(arena, T)(args)] from
    [Tool/Memory.h] is absent; it places a new object in the arena
    (a bump allocator) and yields its address. *)
Definition ARENA_ALLOC (arena : MemoryArena) (o : ArenaObject) : nat * MemoryArena :=
  (length arena, arena ++ [o]).

(** Modelled from the spec: [BSDF::add] from [Core/BSDF.h] is absent;
    the container owns zero or more lobes and [add] gives it one more. *)
Definition BSDF_add (arena : MemoryArena) (container lobe : nat) : MemoryArena :=
  match arena !! container with
  | Some (ObjBSDF g bxdfs) => <[container := ObjBSDF g (bxdfs ++ [lobe])]> arena
  | _ => arena
  end.

Record SurfaceInteraction : Type := mkSI {
  si_geometry : Geometry;
  bsdf : option nat
}.

Record LambertianMaterial : Type := mkLambertian {
  m_Kr : Spectrum
}.

(** [void LambertianMaterial::computeScatteringFunctions(SurfaceInteraction& si,
      MemoryArena& arena, TransportMode mode, bool allowMultipleLobes) const] *)
Definition computeScatteringFunctions (m : LambertianMaterial)
    (si : SurfaceInteraction) (arena : MemoryArena)
    (mode : TransportMode) (allowMultipleLobes : bool)
  : SurfaceInteraction * MemoryArena :=
  let '(b, arena1) := ARENA_ALLOC arena (ObjBSDF (si_geometry si) []) in
  let si1 := mkSI (si_geometry si) (Some b) in
  let R := m_Kr m in
  if negb (isBlack R)
  then
    let '(lobe, arena2) := ARENA_ALLOC arena1 (ObjLambertianReflection R) in
    (si1, BSDF_add arena2 b lobe)
  else (si1, arena1).

(** The lobes held by the container at address [b]. *)
Definition lobes_at (arena : MemoryArena) (b : nat) : option (list ArenaObject) :=
  match arena !! b with
  | Some (ObjBSDF _ bxdfs) => Some (omap (fun a => arena !! a) bxdfs)
  | _ => None
  end.
End material.

End Lambertian.

(** ** [AtomicFloat] (Tool/Parallel.h) *)

Module Atomic.

(** [floatToBits], [bitsToFloat] and the addition of [Float] come from
    other files. *)
Class FloatBits (Float : Type) : Type := {
  floatToBits : Float -> Z;
  bitsToFloat : Z -> Float;
  float_add : Float -> Float -> Float
}.

Section atomic_float.
Context {Float : Type} `{!FloatBits Float}.

(** An [AtomicFloat] is its [bits] member.
    [explicit AtomicFloat(Float v = 0) { bits = floatToBits(v); }] *)
Definition AtomicFloat_new (v : Float) : Z := floatToBits v.

(** [operator Float() const { return bitsToFloat(bits); }] *)
Definition AtomicFloat_read (bits : Z) : Float := bitsToFloat bits.

(** [Float operator=(Float v) { bits = floatToBits(v); return v; }] *)
Definition AtomicFloat_assign (v : Float) (bits : Z) : Float * Z :=
  (v, floatToBits v).

(** [newBits = floatToBits(bitsToFloat(oldBits) + v)] *)
Definition new_bits (oldBits : Z) (v : Float) : Z :=
  floatToBits (float_add (bitsToFloat oldBits) v).

(** A thread that makes the calls [add(v)] for the [v] in [todo], one
    after another.  [oldBits] is [None] between two calls and holds the
    local variable of that name while a call is in its loop. *)
Record Adder : Type := mkAdder {
  todo : list Float;
  oldBits : option Z
}.

(** The [AtomicFloat] shared by the threads, the threads, and the
    values whose addition has taken effect, oldest first. *)
Record AddState : Type := mkAdd {
  bits : Z;
  adders : list Adder;
  applied : list Float
}.

(** One atomic action of thread [j] inside
    [[
      oldBits = bits;
      do { newBits = floatToBits(bitsToFloat(oldBits) + v); }
      while (!bits.compare_exchange_weak(oldBits, newBits));
    ]]
    either the initial load of [bits], or one
    [compare_exchange_weak]: it stores [newBits] when [bits] still
    equals [oldBits] and the exchange does not fail spuriously
    ([spurious]), and otherwise reloads [oldBits] from [bits]. *)
Definition add_step (s : AddState) (turn : nat * bool) : AddState :=
  let '(j, spurious) := turn in
  match adders s !! j with
  | Some (mkAdder (v :: rest) None) =>
      mkAdd (bits s) (<[j := mkAdder (v :: rest) (Some (bits s))]> (adders s))
            (applied s)
  | Some (mkAdder (v :: rest) (Some old)) =>
      if (bits s =? old) && negb spurious
      then mkAdd (new_bits old v) (<[j := mkAdder rest None]> (adders s))
                 (applied s ++ [v])
      else mkAdd (bits s) (<[j := mkAdder (v :: rest) (Some (bits s))]> (adders s))
                 (applied s)
  | _ => s
  end.

Definition add_run (sched : list (nat * bool)) (s : AddState) : AddState :=
  foldl add_step s sched.

(** Threads about to make the given calls on an [AtomicFloat]. *)
Definition add_init (b : Z) (programs : list (list Float)) : AddState :=
  mkAdd b ((fun p => mkAdder p None) <$> programs) [].

Definition adder_done (a : Adder) : bool :=
  match todo a with [] => true | _ => false end.

Definition all_added (s : AddState) : bool := forallb adder_done (adders s).

(** [add(v)] with no other thread around. *)
Definition AtomicFloat_add (v : Float) (b : Z) : Z := new_bits b v.
End atomic_float.

Arguments Adder : clear implicits.
Arguments AddState : clear implicits.

End Atomic.

(** ** The [Scene] constructor (Core/Scene.h) *)

Module SceneModel.

Section scene.
(** What a light holds besides its [flags]. *)
Context {LightData : Type}.

Record Light : Type := mkLight {
  flags : Z;
  light_data : LightData
}.

(** The lights are held through [shared_ptr]s: a [Light::ptr] is an
    address in a store of lights. *)
Definition LightStore : Type := list Light.

Record Scene : Type := mkScene {
  m_lights : list nat;
  m_infiniteLights : list nat
}.

(** [(int)LightFlags::LightInfinite] *)
Variable LightInfinite : Z.

(** [light->preprocess] applied to the scene: a virtual member of the light, given
    the scene as built so far; it may change what the pointers lead
    to. *)
Variable preprocess : nat -> Scene -> LightStore -> LightStore.

(** The body of the constructor's loop, for the lights still to come. *)
Fixpoint scan_lights (pending : list nat) (sc : Scene) (store : LightStore)
  : option (Scene * LightStore) :=
  match pending with
  | [] => Some (sc, store)
  | light :: rest =>
      let store1 := preprocess light sc store in
      match store1 !! light with
      | None => None
      | Some l =>
          let sc1 :=
            if Z.land (flags l) LightInfinite =? 0 then sc
            else mkScene (m_lights sc) (m_infiniteLights sc ++ [light]) in
          scan_lights rest sc1 store1
      end
  end.

(** [Scene::Scene(hitables, lights) : m_lights(lights), m_aggreShape(hitables)];
    [None] when a pointer of [lights] leads nowhere. *)
Definition Scene_new (lights : list nat) (store : LightStore)
  : option (Scene * LightStore) :=
  scan_lights lights (mkScene lights []) store.
End scene.

Arguments Light : clear implicits.
Arguments LightStore : clear implicits.

End SceneModel.

(** * Specification vocabulary *)

Import Parallel.

Global Instance Thread_eq_dec : EqDecision Thread.
Proof. solve_decision. Defined.

(** Where the [j]-th chunk of an even split of [n] units over [T]
    threads begins when the [n mod T] left-over units go, one each, to
    the first chunks. *)
Definition even_split_bound (T n j : Z) : Z :=
  j * (n / T) + Z.min j (n mod T).

(** How many turns worker [j] gets in a schedule, and how many callback
    invocations it made. *)
Definition turns (j : nat) (sched : list nat) : nat :=
  length (filter (fun k => k = j) sched).

Definition calls_by (j : nat) (cs : list Call) : nat :=
  length (filter (fun c : Call => fst c = Worker j) cs).

(** A schedule that lets every one of the [T] workers take more than
    [n] turns. *)
Definition enough_turns (T : Z) (n : Z) (sched : list nat) : Prop :=
  forall j : nat, Z.of_nat j < T -> n < Z.of_nat (turns j sched).

(** How many workers have left their loop. *)
Definition finished (l : list bool) : nat := length (filter (fun b => b = false) l).

(** Each worker in turn runs alone until it leaves its loop. *)
Definition one_after_another (T : Z) (n : Z) : list nat :=
  mjoin ((fun j => replicate (S (Z.to_nat n)) j) <$> seq 0 (Z.to_nat T)).

(** What holds of the shared state throughout a run of the atomic
    seize over [start, end_) with [T] workers: the indices handed out
    so far are [start, start + len), and the cursor has moved once more
    for every worker that left. *)
Definition seize_inv (T start end_ : Z) (s : SeizeState) : Prop :=
  length (running s) = Z.to_nat T
  /\ exists len : Z,
       0 <= len <= end_ - start
       /\ call_index <$> calls s = seqZ start len
       /\ task_index s = to_size_t (start + len + Z.of_nat (finished (running s)))
       /\ (finished (running s) <> 0%nat -> len = end_ - start).

(** A worker still in its loop has called the callback once per turn. *)
Definition turn_inv (sched : list nat) (s : SeizeState) : Prop :=
  forall j : nat, running s !! j = Some true -> turns j sched = calls_by j (calls s).

(** The indices worker [j] processed, in the order it processed them. *)
Definition indices_of_worker (j : nat) (cs : list Call) : list Z :=
  call_index <$> filter (fun c : Call => fst c = Worker j) cs.

Import SamplerModel.

Section sampler_vocabulary.
Context {Float Rng : Type} `{!SamplerDeps Float Rng}.

(** Sequencing of calls that may fail a check. *)
Definition and_then {A B : Type} (c : Checked A) (k : A -> Checked B) : Checked B :=
  match c with
  | Done a => k a
  | Fatal => Fatal
  | Undefined => Undefined
  end.

(** Within one pixel sample: ask for the 1D array, for the 2D array,
    and then for each of them a second time. *)
Definition array_pass (n1 n2 : Z) (s : Sampler Float)
  : Checked (list (option ArrayView) * Sampler Float) :=
  and_then (get1DArray n1 s) (fun '(a, s1) =>
  and_then (get2DArray n2 s1) (fun '(b, s2) =>
  and_then (get1DArray n1 s2) (fun '(c, s3) =>
  and_then (get2DArray n2 s3) (fun '(d, s4) =>
  Done ([a; b; c; d], s4))))).

(** [samples] pixel samples in a row: the four requests of
    [array_pass], then [startNextSample]; for every sample the four
    answers and what [startNextSample] returned. *)
Fixpoint array_protocol (n1 n2 : Z) (samples : nat) (s : Sampler Float)
  : Checked (list (list (option ArrayView) * bool)) :=
  match samples with
  | O => Done []
  | S k =>
      and_then (array_pass n1 n2 s) (fun '(views, s1) =>
      let '(more, s2) := startNextSample s1 in
      and_then (array_protocol n1 n2 k s2) (fun rest =>
      Done ((views, more) :: rest)))
  end.

(** What the protocol is expected to answer in sample [i]. *)
Definition expected_pass (n1 n2 spp i : Z) : list (option ArrayView) * bool :=
  ([Some (mkView 0 (i * n1)); Some (mkView 0 (i * n2)); None; None],
   i + 1 <? spp).

(** [k] successive draws from a generator. *)
Fixpoint draws {T : Type} (draw : Rng -> T * Rng) (k : nat) (r : Rng)
  : list T * Rng :=
  match k with
  | O => ([], r)
  | S k' =>
      let '(x, r1) := draw r in
      let '(xs, r2) := draws draw k' r1 in
      (x :: xs, r2)
  end.

(** Consecutive elements taken two by two. *)
Fixpoint pair_up {T : Type} (l : list T) : list (T * T) :=
  match l with
  | x :: y :: rest => (x, y) :: pair_up rest
  | _ => []
  end.

(** Two samplers registered the same arrays. *)
Definition same_configuration (s1 s2 : Sampler Float) : Prop :=
  samplesPerPixel s1 = samplesPerPixel s2
  /\ m_samples1DArraySizes s1 = m_samples1DArraySizes s2
  /\ m_samples2DArraySizes s1 = m_samples2DArraySizes s2
  /\ length <$> m_sampleArray1D s1 = length <$> m_sampleArray1D s2
  /\ length <$> m_sampleArray2D s1 = length <$> m_sampleArray2D s2.

(** The 1D and the 2D array interface, side by side. *)
Inductive Dimension : Set := OneD | TwoD.

Definition getArray (d : Dimension) : Z -> Sampler Float ->
    Checked (option ArrayView * Sampler Float) :=
  match d with OneD => get1DArray | TwoD => get2DArray end.

Definition cursor (d : Dimension) (s : Sampler Float) : nat :=
  match d with OneD => m_array1DOffset s | TwoD => m_array2DOffset s end.

Definition registered (d : Dimension) (s : Sampler Float) : nat :=
  match d with
  | OneD => length (m_sampleArray1D s)
  | TwoD => length (m_sampleArray2D s)
  end.

Definition recorded_sizes (d : Dimension) (s : Sampler Float) : list Z :=
  match d with
  | OneD => m_samples1DArraySizes s
  | TwoD => m_samples2DArraySizes s
  end.
End sampler_vocabulary.

(** A small concrete generator (a linear congruential one over [Z],
    whose [setSequence] starts the stream afresh) on which statements
    can be tried. *)
Definition lcg_next (r : Z) : Z := (r * 1103515245 + 12345) mod 2 ^ 31.

Global Instance lcg_deps : SamplerDeps Z Z := {|
  float_zero := 0;
  rng_seeded := fun seed => seed mod 2 ^ 31;
  setSequence := fun seed _ => seed mod 2 ^ 31;
  uniformFloat := fun r => (r, lcg_next r);
  roundCount := fun n => n
|}.

Section sampler_invariants.
Context {Float Rng : Type} `{!SamplerDeps Float Rng}.

(** Every registered size has its buffer, of [size * samplesPerPixel]
    elements. *)
Definition buffers_match {T : Type} (spp : Z) (sizes : list Z)
    (buffers : list (list T)) : Prop :=
  Forall2 (fun n buf => Z.of_nat (length buf) = n * spp) sizes buffers.

Definition registries_ok (s : Sampler Float) : Prop :=
  buffers_match (samplesPerPixel s) (m_samples1DArraySizes s) (m_sampleArray1D s)
  /\ buffers_match (samplesPerPixel s) (m_samples2DArraySizes s) (m_sampleArray2D s).

(** No cursor is past the last registered array. *)
Definition cursors_ok (s : Sampler Float) : Prop :=
  (m_array1DOffset s <= length (m_sampleArray1D s))%nat
  /\ (m_array2DOffset s <= length (m_sampleArray2D s))%nat.

Definition well_formed (s : Sampler Float) : Prop :=
  registries_ok s /\ cursors_ok s.

Definition buffer_lengths (d : Dimension) (s : Sampler Float) : list nat :=
  match d with
  | OneD => length <$> m_sampleArray1D s
  | TwoD => length <$> m_sampleArray2D s
  end.

Definition requestArray (d : Dimension) : Z -> Sampler Float -> Checked (Sampler Float) :=
  match d with OneD => request1DArray | TwoD => request2DArray end.

(** A series of registrations, in the order given. *)
Fixpoint register_all (regs : list (Dimension * Z)) (s : Sampler Float)
  : Checked (Sampler Float) :=
  match regs with
  | [] => Done s
  | (d, n) :: rest => and_then (requestArray d n s) (register_all rest)
  end.

(** Array requests of one dimensionality, one after another. *)
Fixpoint serve_arrays (d : Dimension) (ns : list Z) (s : Sampler Float)
  : Checked (list (option ArrayView) * Sampler Float) :=
  match ns with
  | [] => Done ([], s)
  | n :: rest =>
      and_then (getArray d n s) (fun '(v, s1) =>
      and_then (serve_arrays d rest s1) (fun '(vs, s2) =>
      Done (v :: vs, s2)))
  end.

(** A 1D request followed by a 2D request, and the other way round. *)
Definition one_then_two (n1 n2 : Z) (s : Sampler Float)
  : Checked (option ArrayView * option ArrayView * Sampler Float) :=
  and_then (get1DArray n1 s) (fun '(a, s1) =>
  and_then (get2DArray n2 s1) (fun '(b, s2) => Done (a, b, s2))).

Definition two_then_one (n1 n2 : Z) (s : Sampler Float)
  : Checked (option ArrayView * option ArrayView * Sampler Float) :=
  and_then (get2DArray n2 s) (fun '(b, s1) =>
  and_then (get1DArray n1 s1) (fun '(a, s2) => Done (a, b, s2))).

(** Two calls of [get1D] in a row, their values paired. *)
Definition get1D_twice (rs : RandomSampler Float Rng)
  : Checked (Vector2f * RandomSampler Float Rng) :=
  and_then (get1D rs) (fun '(x, rs1) =>
  and_then (get1D rs1) (fun '(y, rs2) => Done ((x, y), rs2))).

(** The sum of the registered sizes. *)
Definition total_size (sizes : list Z) : Z := foldr Z.add 0 sizes.


(** One pixel sample seen from the caller: [setSampleNumber(i)], then a
    request for every registered array of one dimensionality in the
    order of registration, the caller reading [n] elements through
    each pointer it gets. *)
Definition round_1D (i : Z) (rs : RandomSampler Float Rng) : list (Reply Float) :=
  drive (RSetSampleNumber i :: (RGet1DArray <$> m_samples1DArraySizes (base rs))) rs.

Definition round_2D (i : Z) (rs : RandomSampler Float Rng) : list (Reply Float) :=
  drive (RSetSampleNumber i :: (RGet2DArray <$> m_samples2DArraySizes (base rs))) rs.

(** What the caller read from array [a] in such a round. *)
Definition contents_1D (a : nat) (replies : list (Reply Float)) : list Float :=
  match replies !! S a with
  | Some (Reply1DArray (Some contents)) => contents
  | _ => []
  end.

Definition contents_2D (a : nat) (replies : list (Reply Float)) : list Vector2f :=
  match replies !! S a with
  | Some (Reply2DArray (Some contents)) => contents
  | _ => []
  end.

(** [k] calls of [startNextSample] in a row. *)
Fixpoint advance (k : nat) (s : Sampler Float) : Sampler Float :=
  match k with
  | O => s
  | S k' => snd (startNextSample (advance k' s))
  end.
End sampler_invariants.

Import SceneModel.

(** Whether the light a pointer leads to has the infinite bit set. *)
Definition infinite_in {LightData : Type} (LightInfinite : Z)
    (store : LightStore LightData) (light : nat) : bool :=
  match store !! light with
  | Some l => negb (Z.land (flags l) LightInfinite =? 0)
  | None => false
  end.

Import Atomic.

(** Floats on which statements about [AtomicFloat] can be tried:
    integers that are their own bit pattern. *)
Global Instance integer_bits : FloatBits Z := {|
  floatToBits := fun x => x;
  bitsToFloat := fun b => b;
  float_add := Z.add
|}.

(** * Properties *)

(** ** Machine integers *)

Lemma to_int_small z : - 2 ^ 31 <= z < 2 ^ 31 -> to_int z = z.
Proof.
  intros H. unfold to_int, INT_MOD.
  rewrite Z.mod_small by lia. lia.
Qed.

Lemma to_size_t_small z : 0 <= z < 2 ^ 64 -> to_size_t z = z.
Proof. intros H. unfold to_size_t, SIZE_MOD. now rewrite Z.mod_small. Qed.

Lemma numSystemCores_ge_1 hw : 0 <= hw < 2 ^ 31 -> 1 <= numSystemCores hw < 2 ^ 31.
Proof.
  intros H. unfold numSystemCores, to_unsigned, INT_MOD.
  rewrite (Z.mod_small hw) by lia.
  rewrite to_int_small by lia. lia.
Qed.

(** ** The static split *)

Section static_split_facts.
Variables T n : Z.
Hypothesis T_pos : 1 <= T.
Hypothesis n_nonneg : 0 <= n.
Hypothesis fits_int : n + T <= INT_MAX.

Local Abbreviation q := (n / T).
Local Abbreviation r := (n mod T).

Local Lemma split_eq : n = T * q + r.
Proof. apply Z.div_mod. lia. Qed.

Local Lemma r_range : 0 <= r < T.
Proof. apply Z.mod_pos_bound. lia. Qed.

Local Lemma q_range : 0 <= q <= n.
Proof.
  split.
  - apply Z.div_pos; lia.
  - apply Z.div_le_upper_bound; nia.
Qed.

Lemma n_max_tasks_per_thread_eq :
  n_max_tasks_per_thread T n = q + (if r =? 0 then 0 else 1).
Proof.
  unfold n_max_tasks_per_thread, INT_MAX in *.
  pose proof q_range. pose proof r_range.
  rewrite (to_size_t_small T) by lia.
  destruct (r =? 0); rewrite to_size_t_small, to_int_small; lia.
Qed.

Lemma n_lacking_tasks_eq :
  n_lacking_tasks T n = if r =? 0 then 0 else T - r.
Proof.
  unfold n_lacking_tasks. rewrite n_max_tasks_per_thread_eq.
  pose proof q_range. pose proof r_range. pose proof split_eq.
  unfold INT_MAX in *.
  destruct (Z.eqb_spec r 0).
  - rewrite (to_int_small ((q + 0) * T)) by lia.
    rewrite (to_size_t_small ((q + 0) * T)) by lia.
    replace ((q + 0) * T - n) with 0 by lia. reflexivity.
  - rewrite (to_int_small ((q + 1) * T)) by lia.
    rewrite (to_size_t_small ((q + 1) * T)) by lia.
    replace ((q + 1) * T - n) with (T - r) by lia.
    rewrite to_size_t_small, to_int_small; lia.
Qed.

Lemma lacking_offset_eq j :
  0 <= j < T ->
  lacking_offset T n j = if r =? 0 then j - T else j - r.
Proof.
  intros Hj. unfold lacking_offset. rewrite n_lacking_tasks_eq.
  pose proof r_range. unfold INT_MAX in *.
  rewrite (to_int_small (j - T)) by lia.
  destruct (r =? 0); rewrite to_int_small; lia.
Qed.

Lemma inclusive_start_index_eq j :
  0 <= j < T -> inclusive_start_index T n j = even_split_bound T n j.
Proof.
  intros Hj. unfold inclusive_start_index, n_lacking_tasks_so_far, even_split_bound.
  rewrite lacking_offset_eq, n_max_tasks_per_thread_eq by done.
  pose proof q_range. pose proof r_range. pose proof split_eq.
  unfold INT_MAX in *.
  assert (0 <= j * q <= T * q) by nia.
  destruct (Z.eqb_spec r 0).
  - rewrite (to_int_small (j * (q + 0))) by lia.
    rewrite to_int_small; lia.
  - rewrite (to_int_small (j * (q + 1))) by lia.
    rewrite to_int_small; lia.
Qed.

Lemma exclusive_end_index_eq j :
  0 <= j < T -> exclusive_end_index T n j = even_split_bound T n (j + 1).
Proof.
  intros Hj. unfold exclusive_end_index.
  rewrite inclusive_start_index_eq, lacking_offset_eq,
    n_max_tasks_per_thread_eq by done.
  unfold even_split_bound.
  pose proof q_range. pose proof r_range. pose proof split_eq.
  unfold INT_MAX in *.
  assert (0 <= j * q /\ j * q + q <= T * q) by nia.
  destruct (Z.eqb_spec r 0).
  - destruct (Z.leb_spec 0 (j - T)); [lia|].
    rewrite (to_int_small (_ + _)) by lia. rewrite to_int_small; lia.
  - destruct (Z.leb_spec 0 (j - r)).
    + rewrite (to_int_small (_ + _)) by lia. rewrite to_int_small; lia.
    + rewrite (to_int_small (_ + _)) by lia. rewrite to_int_small; lia.
Qed.


Lemma even_split_bound_0 : even_split_bound T n 0 = 0.
Proof. unfold even_split_bound. pose proof r_range. fold r. lia. Qed.

Lemma even_split_bound_T : even_split_bound T n T = n.
Proof.
  unfold even_split_bound.
  pose proof r_range. pose proof split_eq. lia.
Qed.

Lemma even_split_bound_step j :
  0 <= j ->
  even_split_bound T n (j + 1) - even_split_bound T n j
  = q + (if j <? r then 1 else 0).
Proof.
  intros Hj. unfold even_split_bound.
  destruct (Z.ltb_spec j r); lia.
Qed.

Lemma inner_loop_eq j :
  0 <= j < T ->
  inner_loop T n j
  = seqZ (even_split_bound T n j) (q + (if j <? r then 1 else 0)).
Proof.
  intros Hj. unfold inner_loop.
  rewrite inclusive_start_index_eq, exclusive_end_index_eq by done.
  now rewrite even_split_bound_step by lia.
Qed.

Lemma chunks_prefix (k : nat) :
  Z.of_nat k <= T ->
  mjoin (inner_loop T n <$> seqZ 0 (Z.of_nat k))
  = seqZ 0 (even_split_bound T n (Z.of_nat k)).
Proof.
  induction k as [|k IH]; intros Hk.
  - change (Z.of_nat 0) with 0. rewrite even_split_bound_0. reflexivity.
  - rewrite seqZ_S, fmap_app, join_app, IH by lia.
    change (mjoin (inner_loop T n <$> [0 + Z.of_nat k]))
      with (inner_loop T n (0 + Z.of_nat k) ++ []).
    rewrite app_nil_r, Z.add_0_l, inner_loop_eq by lia.
    pose proof q_range. pose proof r_range.
    assert (Hb : 0 <= even_split_bound T n (Z.of_nat k)).
    { unfold even_split_bound. fold q r. nia. }
    pose proof (even_split_bound_step (Z.of_nat k) ltac:(lia)) as Hstep.
    replace (Z.of_nat k + 1) with (Z.of_nat (S k)) in Hstep by lia.
    set (size := q + (if Z.of_nat k <? r then 1 else 0)) in *.
    assert (0 <= size) by (subst size; destruct (Z.of_nat k <? r); lia).
    replace (even_split_bound T n (Z.of_nat (S k)))
      with (even_split_bound T n (Z.of_nat k) + size) by lia.
    now rewrite seqZ_app by lia.
Qed.

(** With no [int] overflow, the chunks of the static split are
    contiguous, tile [0, n) in increasing order, and chunk [j] has
    [n / T] units plus one more exactly when [j < n mod T]. *)
Lemma chunks_tile_from_zero :
  length (chunks T n) = Z.to_nat T
  /\ mjoin (chunks T n) = seqZ 0 n
  /\ (forall j : nat, Z.of_nat j < T ->
        chunks T n !! j
        = Some (seqZ (even_split_bound T n (Z.of_nat j))
                     (n / T + (if Z.of_nat j <? n mod T then 1 else 0)))).
Proof.
  unfold chunks. split; [|split].
  - now rewrite length_fmap, length_seqZ.
  - replace T with (Z.of_nat (Z.to_nat T)) at 2 by lia.
    rewrite chunks_prefix by lia.
    now rewrite Z2Nat.id, even_split_bound_T by lia.
  - intros j Hj. rewrite list_lookup_fmap, lookup_seqZ_lt by lia. simpl.
    now rewrite Z.add_0_l, inner_loop_eq by lia.
Qed.
End static_split_facts.


(** What [parallel_for] really tiles is [0, end - start), whatever
    [start] is. *)
Lemma parallel_for_tiles_from_zero dchecks T start end_ :
  1 <= T -> 0 <= start < end_ -> end_ < SIZE_MOD ->
  end_ - start + T <= INT_MAX ->
  exists cs, parallel_for dchecks T start end_ = Some cs
    /\ length cs = Z.to_nat T
    /\ mjoin cs = seqZ 0 (end_ - start)
    /\ (forall j : nat, Z.of_nat j < T ->
          cs !! j = Some (seqZ (even_split_bound T (end_ - start) (Z.of_nat j))
                           ((end_ - start) / T
                            + (if Z.of_nat j <? (end_ - start) mod T then 1 else 0)))).
Proof.
  intros HT Hr He Hfit. unfold parallel_for, DCHECK_fails, SIZE_MOD in *.
  replace (start <? end_) with true by (symmetry; apply Z.ltb_lt; lia).
  rewrite andb_false_r, to_size_t_small by lia.
  eexists. split; [reflexivity|].
  apply chunks_tile_from_zero; lia.
Qed.

(** No index handed out by [parallel_for] reaches [end - start]; with
    [start >= 1] the last index of the range is never processed. *)
Lemma parallel_for_misses_last_index dchecks T start end_ :
  1 <= T -> 1 <= start < end_ -> end_ < SIZE_MOD ->
  end_ - start + T <= INT_MAX ->
  exists cs, parallel_for dchecks T start end_ = Some cs
    /\ 0 ∈ mjoin cs /\ end_ - 1 ∉ mjoin cs.
Proof.
  intros HT Hr He Hfit.
  destruct (parallel_for_tiles_from_zero dchecks T start end_)
    as (cs & Hcs & _ & Hjoin & _); try lia.
  exists cs. rewrite Hjoin, !elem_of_seqZ. split_and!; done || lia.
Qed.

(** ** The atomic seize *)

Lemma finished_replicate_true k : finished (replicate k true) = 0%nat.
Proof. induction k as [|k IH]; [reflexivity|]. simpl. exact IH. Qed.

Lemma finished_le l : (finished l <= length l)%nat.
Proof. unfold finished. apply length_filter. Qed.

Lemma finished_insert l j :
  l !! j = Some true -> finished (<[j := false]> l) = S (finished l).
Proof.
  revert j. induction l as [|b l IH]; intros [|j] H; simplify_eq/=.
  - reflexivity.
  - unfold finished in *. rewrite !filter_cons.
    case_decide; simpl; rewrite IH; auto.
Qed.

Lemma finished_lt l j : l !! j = Some true -> (finished l < length l)%nat.
Proof.
  intros H. pose proof (finished_le (<[j := false]> l)) as Hle.
  rewrite finished_insert, length_insert in Hle by done. lia.
Qed.

Lemma all_joined_lookup s j :
  all_joined s = true -> running s !! j <> Some true.
Proof.
  unfold all_joined. rewrite forallb_forall. intros Hall Hj.
  apply list_elem_of_lookup_2, list_elem_of_In, Hall in Hj. discriminate.
Qed.

Lemma all_joined_intro s :
  (forall j, running s !! j <> Some true) -> all_joined s = true.
Proof.
  intros H. unfold all_joined. apply forallb_forall. intros b Hb.
  apply list_elem_of_In, list_elem_of_lookup in Hb as [j Hj].
  destruct b; [|reflexivity]. now apply H in Hj.
Qed.

Lemma seqZ_snoc m len : 0 <= len -> seqZ m (len + 1) = seqZ m len ++ [m + len].
Proof.
  intros H. rewrite seqZ_app by lia. reflexivity.
Qed.

Lemma turns_snoc k pre j :
  turns k (pre ++ [j]) = (turns k pre + if decide (j = k) then 1 else 0)%nat.
Proof.
  unfold turns. rewrite filter_app, length_app, filter_cons, filter_nil.
  now case_decide.
Qed.

Lemma calls_by_snoc k cs j i :
  calls_by k (cs ++ [(Worker j, i)])
  = (calls_by k cs + if decide (j = k) then 1 else 0)%nat.
Proof.
  unfold calls_by. rewrite filter_app, length_app, filter_cons, filter_nil.
  simpl. repeat case_decide; simplify_eq; done.
Qed.

Section seize_facts.
Variables T start end_ : Z.
Hypothesis range : 0 <= start <= end_.
Hypothesis T_pos : 1 <= T.
Hypothesis no_wrap : end_ + T <= SIZE_MOD.

Lemma seize_inv_init : seize_inv T start end_ (seize_init T start).
Proof.
  unfold seize_inv, seize_init, SIZE_MOD in *; simpl.
  rewrite length_replicate, finished_replicate_true. split; [done|].
  exists 0. repeat split; try lia; try done.
  rewrite to_size_t_small; lia.
Qed.

Lemma seize_inv_step s j :
  seize_inv T start end_ s -> seize_inv T start end_ (seize_step end_ s j).
Proof.
  intros (Hlen & len & Hl & Hcalls & Hcur & Hfin). unfold seize_step.
  destruct (running s !! j) as [[|]|] eqn:Hj; try (split; eauto 10; fail).
  pose proof (finished_lt _ _ Hj) as Hd.
  assert (Hidx : task_index s = start + len + Z.of_nat (finished (running s))).
  { rewrite Hcur. unfold SIZE_MOD in *. apply to_size_t_small. lia. }
  destruct (Z.ltb_spec (task_index s) end_) as [Hlt|Hge]; split; simpl.
  - done.
  - assert (Hd0 : finished (running s) = 0%nat).
    { destruct (finished (running s)); [done|]. lia. }
    exists (len + 1). rewrite Hd0 in *. split_and!; try lia.
    + rewrite fmap_app, Hcalls, seqZ_snoc by lia. simpl.
      rewrite Hidx. do 2 f_equal. lia.
    + rewrite Hidx. f_equal. lia.
  - now rewrite length_insert.
  - exists len. rewrite finished_insert by done. split_and!; try lia; try done.
    rewrite Hidx. f_equal. lia.
Qed.

Lemma seize_inv_run sched s :
  seize_inv T start end_ s -> seize_inv T start end_ (seize_run end_ sched s).
Proof.
  revert s. induction sched as [|j sched IH]; intros s Hs; [done|].
  apply IH, seize_inv_step, Hs.
Qed.

Lemma turn_inv_init : turn_inv [] (seize_init T start).
Proof. intros j _. reflexivity. Qed.

Lemma turn_inv_step pre s j :
  turn_inv pre s -> turn_inv (pre ++ [j]) (seize_step end_ s j).
Proof.
  intros Hs k. unfold seize_step. rewrite turns_snoc.
  destruct (running s !! j) as [[|]|] eqn:Hj.
  - destruct (task_index s <? end_); simpl; intros Hk.
    + now rewrite calls_by_snoc, (Hs k Hk).
    + destruct (decide (j = k)) as [->|Hne].
      * rewrite list_lookup_insert_eq in Hk by (eapply lookup_lt_Some; eauto).
        discriminate.
      * rewrite list_lookup_insert_ne in Hk by done.
        rewrite (Hs k Hk). lia.
  - intros Hk. rewrite (Hs k Hk). case_decide; simplify_eq; lia.
  - intros Hk. rewrite (Hs k Hk). case_decide; simplify_eq; lia.
Qed.

Lemma turn_inv_run sched pre s :
  turn_inv pre s -> turn_inv (pre ++ sched) (seize_run end_ sched s).
Proof.
  revert pre s. induction sched as [|j sched IH]; intros pre s Hs.
  - now rewrite app_nil_r.
  - replace (pre ++ j :: sched) with ((pre ++ [j]) ++ sched)
      by now rewrite <- app_assoc.
    apply IH, turn_inv_step, Hs.
Qed.

Lemma calls_by_le j cs : (calls_by j cs <= length cs)%nat.
Proof. unfold calls_by. apply length_filter. Qed.

(** Every index is handed out at most once and lies in the range, at
    every moment of every run. *)
Lemma seize_run_calls sched :
  exists len, 0 <= len <= end_ - start
    /\ call_index <$> calls (seize_run end_ sched (seize_init T start))
       = seqZ start len.
Proof.
  destruct (seize_inv_run sched _ seize_inv_init) as (_ & len & ? & ? & _).
  eauto.
Qed.

(** Once every worker has left, the whole range has been handed out. *)
Lemma seize_run_joined sched :
  all_joined (seize_run end_ sched (seize_init T start)) = true ->
  call_index <$> calls (seize_run end_ sched (seize_init T start))
  = seqZ start (end_ - start).
Proof.
  intros Hall.
  destruct (seize_inv_run sched _ seize_inv_init)
    as (Hlen & len & Hl & Hcalls & _ & Hfin).
  rewrite Hcalls. f_equal. apply Hfin.
  set (s := seize_run end_ sched (seize_init T start)) in *.
  destruct (running s) as [|b l] eqn:Hr; [simpl in Hlen; lia|].
  pose proof (all_joined_lookup s 0 Hall) as H0. rewrite Hr in H0.
  destruct b; [done|]. unfold finished. rewrite filter_cons. simpl. lia.
Qed.

(** A schedule that gives every worker more turns than there are
    indices lets every worker leave. *)
Lemma seize_run_terminates sched :
  enough_turns T (end_ - start) sched ->
  all_joined (seize_run end_ sched (seize_init T start)) = true.
Proof.
  intros Hfair. apply all_joined_intro. intros j Hj.
  destruct (seize_inv_run sched _ seize_inv_init)
    as (Hlen & len & Hl & Hcalls & _).
  pose proof (turn_inv_run sched [] _ turn_inv_init j Hj) as Hturns.
  simpl in Hturns.
  apply lookup_lt_Some in Hj as Hjlt. rewrite Hlen in Hjlt.
  specialize (Hfair j ltac:(lia)).
  pose proof (calls_by_le j (calls (seize_run end_ sched (seize_init T start)))) as Hle.
  apply (f_equal length) in Hcalls.
  rewrite length_fmap, length_seqZ in Hcalls. lia.
Qed.
End seize_facts.

Lemma turns_app j l1 l2 : turns j (l1 ++ l2) = (turns j l1 + turns j l2)%nat.
Proof. unfold turns. now rewrite filter_app, length_app. Qed.

Lemma turns_replicate j k : turns j (replicate k j) = k.
Proof.
  induction k as [|k IH]; [reflexivity|].
  change (replicate (S k) j) with ([j] ++ replicate k j).
  rewrite turns_app, IH. unfold turns. rewrite filter_cons, filter_nil.
  now case_decide.
Qed.

(** Running the workers one after another is such a schedule. *)
Lemma one_after_another_enough T n :
  0 <= n -> enough_turns T n (one_after_another T n).
Proof.
  intros Hn j Hj. unfold one_after_another.
  assert (Hin : j ∈ seq 0 (Z.to_nat T)) by (apply elem_of_seq; lia).
  apply list_elem_of_split in Hin as (l1 & l2 & ->).
  rewrite fmap_app, join_app, fmap_cons, turns_app.
  change (mjoin (?x :: ?l)) with (x ++ mjoin l).
  rewrite turns_app, turns_replicate. lia.
Qed.

(** A worker that runs alone for [k] turns, none of which reaches
    [end_], takes the next [k] indices. *)
Lemma seize_run_alone end_ j (k : nat) : forall c live cs,
  live !! j = Some true ->
  0 <= c -> c + Z.of_nat k <= end_ -> end_ < SIZE_MOD ->
  seize_run end_ (replicate k j) (mkSeize c live cs)
  = mkSeize (c + Z.of_nat k) live
            (cs ++ ((fun i => (Worker j, i)) <$> seqZ c (Z.of_nat k))).
Proof.
  induction k as [|k IH]; intros c live cs Hj Hc Hk He.
  - simpl. rewrite Z.add_0_r, app_nil_r. reflexivity.
  - change (replicate (S k) j) with (j :: replicate k j).
    unfold seize_run in *. simpl foldl. unfold seize_step at 2. simpl.
    rewrite Hj.
    replace (c <? end_) with true by (symmetry; apply Z.ltb_lt; lia).
    unfold SIZE_MOD in *. rewrite to_size_t_small by lia.
    rewrite IH by (unfold SIZE_MOD; done || lia).
    f_equal; [lia|]. rewrite <- app_assoc. f_equal.
    rewrite (seqZ_cons c (Z.of_nat (S k))) by lia.
    rewrite fmap_cons. simpl app. do 3 f_equal; lia.
Qed.

(** ** Claims about the scheduler *)

(** C1 (code defect): the static split never adds [start] to the
    indices it hands out. Asked to process [10, 14) on two threads it
    calls the callback on 0, 1 and on 2, 3: no index of the range is
    processed. *)
Theorem parallel_for_ignores_start (dchecks : bool) :
  parallel_for dchecks 2 10 14 = Some [[0; 1]; [2; 3]].
Proof. destruct dchecks; reflexivity. Qed.

(** C2 (amended): over a range [start, end) whose end leaves room for
    the [T] final fetches of the cursor ([end + T <= 2^64]), the atomic
    seize returns under every schedule that gives each worker more than
    [end - start] turns; whenever it returns, the callback has been
    invoked exactly once on every index of the range and on nothing
    else; and at every moment before that no index has been taken twice
    or from outside the range. *)
Theorem seize_processes_each_index_once (dchecks : bool) (T start end_ : Z) :
  1 <= T -> 0 <= start < end_ -> end_ + T <= SIZE_MOD ->
  (forall sched, enough_turns T (end_ - start) sched ->
     exists cs, parallel_for_seize dchecks T start end_ sched = Returned cs)
  /\ (forall sched cs,
        parallel_for_seize dchecks T start end_ sched = Returned cs ->
        call_index <$> cs ≡ₚ seqZ start (end_ - start))
  /\ (forall sched,
        NoDup (call_index <$> calls_of (parallel_for_seize dchecks T start end_ sched))
        /\ (forall i, i ∈ call_index <$> calls_of (parallel_for_seize dchecks T start end_ sched) ->
              start <= i < end_)).
Proof.
  intros HT Hr Hw.
  assert (Hd : DCHECK_fails dchecks (start <? end_) = false).
  { unfold DCHECK_fails.
    replace (start <? end_) with true by (symmetry; apply Z.ltb_lt; lia).
    apply andb_false_r. }
  unfold parallel_for_seize. rewrite Hd. split_and!.
  - intros sched Hfair.
    rewrite (seize_run_terminates T start end_) by (done || lia). eauto.
  - intros sched cs H.
    destruct (all_joined _) eqn:Hall; simplify_eq.
    rewrite (seize_run_joined T start end_) by (done || lia). done.
  - intros sched.
    destruct (seize_run_calls T start end_ ltac:(lia) HT Hw sched)
      as (len & Hlen & Hcalls).
    assert (Hc : call_index <$> calls_of
              (if all_joined (seize_run end_ sched (seize_init T start))
               then Returned (calls (seize_run end_ sched (seize_init T start)))
               else Joining (calls (seize_run end_ sched (seize_init T start))))
            = seqZ start len).
    { destruct (all_joined _); exact Hcalls. }
    rewrite Hc. split; [apply NoDup_seqZ|].
    intros i Hi%elem_of_seqZ. lia.
Qed.

Lemma seize_processes_each_index_once_witness :
  (forall sched, enough_turns 2 (6 - 3) sched ->
     exists cs, parallel_for_seize false 2 3 6 sched = Returned cs)
  /\ (forall sched cs,
        parallel_for_seize false 2 3 6 sched = Returned cs ->
        call_index <$> cs ≡ₚ seqZ 3 (6 - 3))
  /\ (forall sched,
        NoDup (call_index <$> calls_of (parallel_for_seize false 2 3 6 sched))
        /\ (forall i, i ∈ call_index <$> calls_of (parallel_for_seize false 2 3 6 sched) ->
              3 <= i < 6)).
Proof.
  apply (seize_processes_each_index_once false 2 3 6); unfold SIZE_MOD; lia.
Defined.

(** A schedule can be as long as the cursor's whole range. *)
Lemma turns_up_to_size_max : exists k : nat, Z.of_nat k = 2 ^ 64 - 1.
Proof. exists (Z.to_nat (2 ^ 64 - 1)). apply Z2Nat.id. lia. Qed.

(** On [2^64-2, 2^64-1) with two workers: worker 0 takes the one index
    of the range, worker 1 takes the fetch that returns [2^64-1] and
    leaves, the cursor wraps to 0, and worker 0, left alone for [k]
    more turns, takes 0, 1, ... before its own exit fetch. *)
Lemma seize_run_past_the_wrap (k : nat) :
  Z.of_nat k = 2 ^ 64 - 1 ->
  parallel_for_seize false 2 (2 ^ 64 - 2) (2 ^ 64 - 1)
    ([0; 1]%nat ++ replicate k 0%nat ++ [0%nat])
  = Returned ([(Worker 0, 2 ^ 64 - 2)]
              ++ ((fun i => (Worker 0%nat, i)) <$> seqZ 0 (Z.of_nat k))).
Proof.
  intros Hk. unfold parallel_for_seize.
  change (DCHECK_fails false _) with false. cbv iota zeta.
  assert (Hrun : seize_run (2 ^ 64 - 1) ([0; 1]%nat ++ replicate k 0%nat ++ [0%nat])
                   (seize_init 2 (2 ^ 64 - 2))
                 = mkSeize (to_size_t (2 ^ 64 - 1 + 1)) [false; false]
                     ([(Worker 0, 2 ^ 64 - 2)]
                      ++ ((fun i => (Worker 0%nat, i)) <$> seqZ 0 (Z.of_nat k)))).
  { unfold seize_run. rewrite !foldl_app.
    change (foldl (seize_step (2 ^ 64 - 1)) (seize_init 2 (2 ^ 64 - 2)) [0%nat; 1%nat])
      with (mkSeize 0 [true; false] [(Worker 0, 2 ^ 64 - 2)]).
    pose proof (seize_run_alone (2 ^ 64 - 1) 0 k 0 [true; false]
                  [(Worker 0, 2 ^ 64 - 2)]) as Halone.
    unfold seize_run in Halone. rewrite Halone.
    - rewrite Z.add_0_l, Hk. reflexivity.
    - reflexivity.
    - lia.
    - lia.
    - reflexivity. }
  rewrite Hrun. reflexivity.
Qed.

(** C2 as stated fails when the cursor wraps: on [2^64-2, 2^64-1) with
    two workers, after three turns the callback has already run on
    index 0, and there are schedules under which the call returns
    having run it on far more than the one index of the range. *)
Lemma seize_cursor_wraps :
  calls_of (parallel_for_seize false 2 (2 ^ 64 - 2) (2 ^ 64 - 1) [0; 1; 0]%nat)
  = [(Worker 0, 2 ^ 64 - 2); (Worker 0, 0)]
  /\ exists sched cs,
       parallel_for_seize false 2 (2 ^ 64 - 2) (2 ^ 64 - 1) sched = Returned cs
       /\ ~ (call_index <$> cs ≡ₚ seqZ (2 ^ 64 - 2) (2 ^ 64 - 1 - (2 ^ 64 - 2))).
Proof.
  split; [reflexivity|].
  destruct turns_up_to_size_max as [k Hk].
  exists ([0; 1]%nat ++ replicate k 0%nat ++ [0%nat]).
  exists ([(Worker 0, 2 ^ 64 - 2)]
          ++ ((fun i => (Worker 0%nat, i)) <$> seqZ 0 (Z.of_nat k))).
  split; [exact (seize_run_past_the_wrap k Hk)|].
  intros Hperm.
  assert (Hin : 0 ∈ call_index <$> ([(Worker 0, 2 ^ 64 - 2)] ++
            ((fun i => (Worker 0%nat, i)) <$> seqZ 0 (Z.of_nat k)))).
  { rewrite fmap_app, <- list_fmap_compose. apply elem_of_app; right.
    apply list_elem_of_fmap. exists 0. split; [reflexivity|].
    apply elem_of_seqZ. lia. }
  rewrite Hperm in Hin. apply elem_of_seqZ in Hin. lia.
Qed.

(** The dispatcher on an empty or reversed range, away from the wrap of
    the cursor. *)
Lemma parallelFor_no_work dchecks T start end_ policy sched :
  (end_ < start -> parallelFor dchecks T start end_ policy sched = Returned [])
  /\ (start = end_ ->
      dchecks = true \/ policy = SERIAL
      \/ (1 <= T /\ 0 <= end_ /\ end_ + T <= SIZE_MOD) ->
      calls_of (parallelFor dchecks T start end_ policy sched) = []).
Proof.
  unfold parallelFor. split.
  - intros H. now replace (end_ <? start) with true by (symmetry; apply Z.ltb_lt; lia).
  - intros -> H. rewrite Z.ltb_irrefl.
    destruct policy; [unfold serial_loop; now rewrite Z.sub_diag|].
    unfold parallel_for_seize, DCHECK_fails. rewrite Z.ltb_irrefl.
    destruct dchecks; [reflexivity|]. simpl.
    destruct H as [?|[?|(HT & He & Hw)]]; [done..|].
    destruct (seize_run_calls T end_ end_ ltac:(lia) HT Hw sched)
      as (len & Hlen & Hcalls).
    rewrite seqZ_nil in Hcalls by lia. apply fmap_nil_inv in Hcalls.
    destruct (all_joined _); exact Hcalls.
Qed.

(** C7 (code defect): the dispatcher only turns away [start > end], so
    an empty range [start = end] reaches the atomic seize, whose own
    [DCHECK(start < end)] forbids it.  With debug checks the call
    aborts; without them every worker still fetches from the cursor,
    and at [start = end = 2^64-1] the second worker's fetch has wrapped
    to 0, which is below [end]: the callback runs on index 0. *)
Theorem parallelFor_empty_range_at_size_max :
  parallelFor false 2 (2 ^ 64 - 1) (2 ^ 64 - 1) PARALLEL [0; 1]%nat
  = Joining [(Worker 1, 0)]
  /\ parallelFor true 2 (2 ^ 64 - 1) (2 ^ 64 - 1) PARALLEL [0; 1]%nat = Aborted.
Proof. split; reflexivity. Qed.

(** C10 (amended): for [start <= end] the dispatcher under [PARALLEL]
    is the atomic seize on the same arguments, under every schedule and
    in both build modes, and under [SERIAL] it is the plain loop; no
    path leads to the static split. *)
Theorem parallelFor_parallel_is_seize (dchecks : bool) (T start end_ : Z)
    (sched : list nat) :
  start <= end_ ->
  parallelFor dchecks T start end_ PARALLEL sched
  = parallel_for_seize dchecks T start end_ sched
  /\ parallelFor dchecks T start end_ SERIAL sched
     = Returned (serial_loop start end_).
Proof.
  intros H. unfold parallelFor.
  now replace (end_ <? start) with false by (symmetry; apply Z.ltb_ge; lia).
Qed.

Lemma parallelFor_parallel_is_seize_witness :
  parallelFor true 4 0 100 PARALLEL [0; 1; 2; 3]%nat
  = parallel_for_seize true 4 0 100 [0; 1; 2; 3]%nat
  /\ parallelFor true 4 0 100 SERIAL [0; 1; 2; 3]%nat
     = Returned (serial_loop 0 100).
Proof. apply (parallelFor_parallel_is_seize true 4 0 100); lia. Defined.

(** C10 as stated fails for [start > end]: the dispatcher returns at
    once, while the atomic seize called directly trips its
    [DCHECK(start < end)] in a debug build, and in a release build lets
    the workers fetch from the cursor (here it wraps and index 0 is
    processed). *)
Lemma parallelFor_guard_differs_from_seize :
  parallelFor true 1 1 0 PARALLEL [] <> parallel_for_seize true 1 1 0 []
  /\ parallelFor false 2 (2 ^ 64 - 1) 1 PARALLEL [0; 1; 1]%nat
     <> parallel_for_seize false 2 (2 ^ 64 - 1) 1 [0; 1; 1]%nat.
Proof. split; vm_compute; discriminate. Qed.

(** What the static split would have done on a range the dispatcher
    can be given differs from what the dispatcher does. *)
Lemma parallelFor_is_not_static_split :
  parallel_for false 1 1 2 = Some [[0]]
  /\ parallelFor false 1 1 2 PARALLEL [0; 0]%nat = Returned [(Worker 0, 1)].
Proof. split; reflexivity. Qed.

(** ** The sampler *)

Section sampler_facts.
Context {Float Rng : Type} `{!SamplerDeps Float Rng}.

Lemma draws_app {T : Type} (draw : Rng -> T * Rng) (a b : nat) (r : Rng) :
  draws draw (a + b) r
  = (fst (draws draw a r) ++ fst (draws draw b (snd (draws draw a r))),
     snd (draws draw b (snd (draws draw a r)))).
Proof.
  revert r. induction a as [|a IH]; intros r; simpl.
  - now destruct (draws draw b r).
  - destruct (draw r) as [x r1]. rewrite IH.
    now destruct (draws draw a r1).
Qed.

Lemma refill_draws {T : Type} (draw : Rng -> T * Rng) (buf : list T) (r : Rng) :
  refill draw buf r = draws draw (length buf) r.
Proof.
  revert r. induction buf as [|x buf IH]; intros r; simpl; [done|].
  destruct (draw r) as [y r1]. now rewrite IH.
Qed.

Lemma length_draws {T : Type} (draw : Rng -> T * Rng) (k : nat) (r : Rng) :
  length (fst (draws draw k r)) = k.
Proof.
  revert r. induction k as [|k IH]; intros r; simpl; [done|].
  destruct (draw r) as [y r1]. specialize (IH r1).
  destruct (draws draw k r1). simpl in *. now rewrite IH.
Qed.

(** Refilling all buffers keeps their shape and lays the stream of
    draws over them slot by slot. *)
Lemma refill_all_spec {T : Type} (draw : Rng -> T * Rng)
    (buffers : list (list T)) (r : Rng) :
  length <$> fst (refill_all draw buffers r) = length <$> buffers
  /\ (mjoin (fst (refill_all draw buffers r)), snd (refill_all draw buffers r))
     = draws draw (length (mjoin buffers)) r.
Proof.
  revert r. induction buffers as [|buf buffers IH]; intros r; simpl; [done|].
  rewrite refill_draws, length_app, draws_app.
  pose proof (length_draws draw (length buf) r) as Hlen.
  destruct (draws draw (length buf) r) as [buf' r1]. simpl in *.
  destruct (IH r1) as [IH1 IH2].
  destruct (refill_all draw buffers r1) as [rest r2]. simpl in *.
  rewrite <- IH2. simpl. split; [|reflexivity].
  rewrite Hlen. f_equal. exact IH1.
Qed.

Lemma refill_all_length {T : Type} (draw : Rng -> T * Rng)
    (buffers : list (list T)) (r : Rng) :
  length (fst (refill_all draw buffers r)) = length buffers.
Proof.
  destruct (refill_all_spec draw buffers r) as [H _].
  apply (f_equal length) in H. now rewrite !length_fmap in H.
Qed.

(** Only the shape of the buffers matters to a refill. *)
Lemma refill_all_shape {T : Type} (draw : Rng -> T * Rng)
    (b1 b2 : list (list T)) (r : Rng) :
  length <$> b1 = length <$> b2 ->
  refill_all draw b1 r = refill_all draw b2 r.
Proof.
  revert b2 r. induction b1 as [|x b1 IH]; intros [|y b2] r H; simplify_eq/=.
  - done.
  - rewrite !refill_draws. replace (length y) with (length x) by done.
    destruct (draws draw (length x) r) as [x' r1].
    now rewrite (IH b2 r1).
Qed.

(** [k] pairs drawn the way the braced initialiser draws them are the
    next [2 * k] draws of the generator, taken two by two. *)
Lemma draws_draw2_pairs (k : nat) (r : Rng) :
  draws draw2 k r
  = (pair_up (fst (draws uniformFloat (2 * k) r)),
     snd (draws uniformFloat (2 * k) r)).
Proof.
  revert r. induction k as [|k IH]; intros r; [done|].
  replace (2 * S k)%nat with (S (S (2 * k))) by lia.
  remember (2 * k)%nat as m eqn:Hm. cbn [draws].
  destruct (draw2 r) as [v r2'] eqn:Hd. unfold draw2 in Hd.
  destruct (uniformFloat r) as [x r1].
  destruct (uniformFloat r1) as [y r2]. injection Hd as <- <-.
  rewrite (IH r2).
  now destruct (draws uniformFloat m r2) as [xs r4].
Qed.

(** *** The array protocol *)

Lemma element_address_in_range {T : Type} (buffers : list (list T))
    (offset : nat) (index : Z) (buf : list T) :
  buffers !! offset = Some buf ->
  0 <= index < Z.of_nat (length buf) ->
  element_address buffers offset index = Done (Some (mkView offset index)).
Proof.
  intros Hb Hi. unfold element_address. rewrite Hb.
  replace (0 <=? index) with true by (symmetry; apply Z.leb_le; lia).
  now replace (index <? Z.of_nat (length buf)) with true
    by (symmetry; apply Z.ltb_lt; lia).
Qed.

Lemma array_pass_one_each (n1 n2 : Z) (s : Sampler Float)
    (b1 : list Float) (b2 : list Vector2f) :
  m_array1DOffset s = 0%nat -> m_array2DOffset s = 0%nat ->
  m_samples1DArraySizes s = [n1] -> m_samples2DArraySizes s = [n2] ->
  m_sampleArray1D s = [b1] -> m_sampleArray2D s = [b2] ->
  Z.of_nat (length b1) = n1 * samplesPerPixel s ->
  Z.of_nat (length b2) = n2 * samplesPerPixel s ->
  0 < n1 -> 0 < n2 ->
  0 <= m_currentPixelSampleIndex s < samplesPerPixel s ->
  array_pass n1 n2 s
  = Done ([Some (mkView 0 (m_currentPixelSampleIndex s * n1));
           Some (mkView 0 (m_currentPixelSampleIndex s * n2)); None; None],
          mkSampler (samplesPerPixel s) (m_currentPixel s)
            (m_currentPixelSampleIndex s) 1 1
            (m_samples1DArraySizes s) (m_samples2DArraySizes s)
            (m_sampleArray1D s) (m_sampleArray2D s)).
Proof.
  destruct s as [spp px i o1 o2 z1 z2 a1 a2]; simpl.
  intros -> -> -> -> -> -> Hl1 Hl2 Hn1 Hn2 Hi.
  assert (Hlt : (i <? spp) = true) by (apply Z.ltb_lt; lia).
  unfold array_pass, get1DArray; simpl.
  rewrite Z.eqb_refl, Hlt; simpl.
  rewrite (element_address_in_range [b1] 0 (i * n1) b1) by (done || nia). simpl.
  unfold get2DArray; simpl.
  rewrite Z.eqb_refl, Hlt; simpl.
  rewrite (element_address_in_range [b2] 0 (i * n2) b2) by (done || nia). simpl.
  reflexivity.
Qed.

Lemma array_protocol_one_each (n1 n2 : Z) (k : nat) (b1 : list Float)
    (b2 : list Vector2f) : forall s : Sampler Float,
  m_array1DOffset s = 0%nat -> m_array2DOffset s = 0%nat ->
  m_samples1DArraySizes s = [n1] -> m_samples2DArraySizes s = [n2] ->
  m_sampleArray1D s = [b1] -> m_sampleArray2D s = [b2] ->
  Z.of_nat (length b1) = n1 * samplesPerPixel s ->
  Z.of_nat (length b2) = n2 * samplesPerPixel s ->
  0 < n1 -> 0 < n2 ->
  0 <= m_currentPixelSampleIndex s ->
  m_currentPixelSampleIndex s + Z.of_nat k <= samplesPerPixel s ->
  array_protocol n1 n2 k s
  = Done (expected_pass n1 n2 (samplesPerPixel s)
            <$> seqZ (m_currentPixelSampleIndex s) (Z.of_nat k)).
Proof.
  induction k as [|k IH];
    intros s Ho1 Ho2 Hz1 Hz2 Ha1 Ha2 Hl1 Hl2 Hn1 Hn2 Hi0 Hi; [done|].
  cbn [array_protocol].
  rewrite (array_pass_one_each n1 n2 s b1 b2) by (done || lia).
  cbn [and_then startNextSample set_cursor]. simpl.
  rewrite IH by (simpl; done || lia). simpl.
  rewrite (seqZ_cons _ (Z.of_nat (S k))) by lia.
  rewrite fmap_cons. unfold expected_pass at 3.
  replace (Z.succ (m_currentPixelSampleIndex s))
    with (m_currentPixelSampleIndex s + 1) by lia.
  now replace (Z.pred (Z.of_nat (S k))) with (Z.of_nat k) by lia.
Qed.

Lemma singleton_of_lengths {T : Type} (l : list (list T)) (k : nat) :
  length <$> l = [k] -> exists b, l = [b] /\ length b = k.
Proof.
  destruct l as [|b [|b' l]]; intros H; simplify_eq/=. eauto.
Qed.
End sampler_facts.

Section sampler_claims.
Context {Float Rng : Type} `{!SamplerDeps Float Rng}.

Lemma RandomSampler_startPixel_eq (p : Vector2i) (rs : RandomSampler Float Rng) :
  let f1 := refill_all uniformFloat (m_sampleArray1D (base rs)) (m_rng rs) in
  let f2 := refill_all draw2 (m_sampleArray2D (base rs)) (snd f1) in
  RandomSampler_startPixel p rs
  = mkRandomSampler
      (mkSampler (samplesPerPixel (base rs)) p 0 0 0
         (m_samples1DArraySizes (base rs)) (m_samples2DArraySizes (base rs))
         (fst f1) (fst f2))
      (snd f2).
Proof.
  unfold RandomSampler_startPixel. simpl.
  destruct (refill_all uniformFloat _ _) as [a1 r1]. simpl.
  now destruct (refill_all draw2 _ _) as [a2 r2].
Qed.

(** C3: on a sampler with [samplesPerPixel = 8] on which one 1D array
    of size 4 and then one 2D array of size 2 were registered, after
    [startPixel] (the [RandomSampler] one, or the base one) each of
    the 8 pixel samples answers the first [get1DArray(4)] and the
    first [get2DArray(2)] with a pointer (into buffer 0, at [4*i] and
    [2*i] in sample [i]) and a second request of either kind with
    [nullptr]; [startNextSample] says [true] after samples 0..6 and
    [false] after sample 7. *)
Theorem array_protocol_eight_samples (seed : Z)
    (uninit : Vector2i * Z * nat * nat) (p : Vector2i) (s1 s2 : Sampler Float) :
  request1DArray 4 (base (RandomSampler_new 8 seed uninit)) = Done s1 ->
  request2DArray 2 s1 = Done s2 ->
  array_protocol 4 2 8
    (base (RandomSampler_startPixel p (mkRandomSampler s2 (rng_seeded seed))))
  = Done (expected_pass 4 2 8 <$> seqZ 0 8)
  /\ array_protocol 4 2 8 (startPixel p s2)
     = Done (expected_pass 4 2 8 <$> seqZ 0 8).
Proof.
  destruct uninit as [[[p0 i0] o1] o2].
  unfold request1DArray, request2DArray, new_buffer. simpl.
  destruct (roundCount 4 =? 4); simpl; [|done]. intros [= <-]. simpl.
  destruct (roundCount 2 =? 2); simpl; [|done]. intros [= <-].
  split.
  - rewrite RandomSampler_startPixel_eq. cbn zeta.
    destruct (refill_all_spec uniformFloat
                [replicate (Z.to_nat (4 * 8)) float_zero] (rng_seeded seed))
      as [Hs1 _].
    apply singleton_of_lengths in Hs1 as (b1 & Hb1 & Hl1).
    destruct (refill_all_spec draw2
                [replicate (Z.to_nat (2 * 8)) (float_zero, float_zero)]
                (snd (refill_all uniformFloat
                        [replicate (Z.to_nat (4 * 8)) float_zero] (rng_seeded seed))))
      as [Hs2 _].
    apply singleton_of_lengths in Hs2 as (b2 & Hb2 & Hl2).
    rewrite ?length_replicate in Hl1. rewrite ?length_replicate in Hl2.
    simpl in Hl1, Hl2.
    apply (array_protocol_one_each 4 2 8 b1 b2); simpl; try done; lia.
  - apply (array_protocol_one_each 4 2 8 (replicate (Z.to_nat (4 * 8)) float_zero)
             (replicate (Z.to_nat (2 * 8)) (float_zero, float_zero)));
      simpl; try done; rewrite ?length_replicate; lia.
Qed.

(** C5: [Sampler::startPixel(p)] makes [p] the current pixel and puts
    the sample index and both array cursors at 0, leaving the rest
    alone; [RandomSampler::startPixel(p)] does the same and, keeping
    the shape of every registered buffer, overwrites every 1D slot
    with the next draw of [m_rng.uniformFloat()], one per slot in
    order, and then every 2D slot with the two draws that follow,
    first component first; the generator is left after the last of
    these draws. *)
Theorem startPixel_resets_and_refills (p : Vector2i) (s : Sampler Float)
    (rs : RandomSampler Float Rng) :
  startPixel p s
  = mkSampler (samplesPerPixel s) p 0 0 0
      (m_samples1DArraySizes s) (m_samples2DArraySizes s)
      (m_sampleArray1D s) (m_sampleArray2D s)
  /\ let rs' := RandomSampler_startPixel p rs in
     let d1 := draws uniformFloat (length (mjoin (m_sampleArray1D (base rs)))) (m_rng rs) in
     let d2 := draws uniformFloat (2 * length (mjoin (m_sampleArray2D (base rs))))
                 (snd d1) in
     m_currentPixel (base rs') = p
     /\ m_currentPixelSampleIndex (base rs') = 0
     /\ m_array1DOffset (base rs') = 0%nat
     /\ m_array2DOffset (base rs') = 0%nat
     /\ samplesPerPixel (base rs') = samplesPerPixel (base rs)
     /\ m_samples1DArraySizes (base rs') = m_samples1DArraySizes (base rs)
     /\ m_samples2DArraySizes (base rs') = m_samples2DArraySizes (base rs)
     /\ length <$> m_sampleArray1D (base rs') = length <$> m_sampleArray1D (base rs)
     /\ length <$> m_sampleArray2D (base rs') = length <$> m_sampleArray2D (base rs)
     /\ mjoin (m_sampleArray1D (base rs')) = fst d1
     /\ mjoin (m_sampleArray2D (base rs')) = pair_up (fst d2)
     /\ m_rng rs' = snd d2.
Proof.
  split; [reflexivity|]. cbn zeta. rewrite RandomSampler_startPixel_eq. simpl.
  destruct (refill_all_spec uniformFloat (m_sampleArray1D (base rs)) (m_rng rs))
    as [Hs1 Hd1].
  rewrite <- Hd1. simpl.
  destruct (refill_all_spec draw2 (m_sampleArray2D (base rs))
              (snd (refill_all uniformFloat (m_sampleArray1D (base rs)) (m_rng rs))))
    as [Hs2 Hd2].
  rewrite draws_draw2_pairs in Hd2.
  injection Hd2 as Hc2 Hr2.
  split_and!; done.
Qed.


(** C8: when a registered array is still to be handed out at the
    cursor and the requested [n] is not the size recorded for it,
    [get1DArray(n)] / [get2DArray(n)] fails its [CHECK_EQ]: the
    process is aborted and no pointer is returned. *)
Theorem getArray_size_mismatch_is_fatal (d : Dimension) (s : Sampler Float)
    (n size : Z) :
  (cursor d s < registered d s)%nat ->
  recorded_sizes d s !! cursor d s = Some size ->
  size <> n ->
  getArray d n s = Fatal.
Proof.
  destruct d; simpl; intros Hlt Hsz Hne.
  - unfold get1DArray. case_decide; [lia|]. rewrite Hsz.
    now replace (size =? n) with false by (symmetry; apply Z.eqb_neq; done).
  - unfold get2DArray. case_decide; [lia|]. rewrite Hsz.
    now replace (size =? n) with false by (symmetry; apply Z.eqb_neq; done).
Qed.

Lemma clone_then_startPixel_agree (seed : Z) (p : Vector2i)
    (rs1 rs2 : RandomSampler Float Rng) :
  same_configuration (base rs1) (base rs2) ->
  setSequence seed (m_rng rs1) = setSequence seed (m_rng rs2) ->
  RandomSampler_startPixel p (clone seed rs1)
  = RandomSampler_startPixel p (clone seed rs2).
Proof.
  intros (Hspp & Hz1 & Hz2 & Ha1 & Ha2) Hrng.
  rewrite !RandomSampler_startPixel_eq. cbn zeta. unfold clone. simpl.
  rewrite Hspp, Hz1, Hz2, Hrng.
  rewrite (refill_all_shape uniformFloat _ _ _ Ha1).
  now rewrite (refill_all_shape draw2 _ _ _ Ha2).
Qed.

(** C4: two clones made with the same seed from samplers with the
    same array registrations (in particular two clones of one
    sampler), for which reseeding leaves the generators in the same
    state, answer every sequence of calls that opens with
    [startPixel] identically: the same [get1D] and [get2D] values,
    the same array contents, the same booleans, and the same abort
    if there is one. *)
Theorem clones_with_same_seed_agree (seed : Z) (p : Vector2i)
    (qs : list Request) (rs1 rs2 : RandomSampler Float Rng) :
  same_configuration (base rs1) (base rs2) ->
  setSequence seed (m_rng rs1) = setSequence seed (m_rng rs2) ->
  drive (RStartPixel p :: qs) (clone seed rs1)
  = drive (RStartPixel p :: qs) (clone seed rs2).
Proof.
  intros Hcfg Hrng. simpl.
  now rewrite (clone_then_startPixel_agree seed p rs1 rs2).
Qed.
End sampler_claims.

Lemma array_protocol_eight_samples_witness :
  array_protocol 4 2 8
    (base (RandomSampler_startPixel (3, 5)
       (mkRandomSampler
          (mkSampler 8 (0, 0) 0 0 0 [4] [2] [replicate 32 0] [replicate 16 (0, 0)])
          (rng_seeded 42))))
  = Done (expected_pass 4 2 8 <$> seqZ 0 8)
  /\ array_protocol 4 2 8
       (startPixel (3, 5)
          (mkSampler 8 (0, 0) 0 0 0 [4] [2] [replicate 32 0] [replicate 16 (0, 0)]))
     = Done (expected_pass 4 2 8 <$> seqZ 0 8).
Proof.
  apply (array_protocol_eight_samples 42 ((0, 0), 0, 0%nat, 0%nat) (3, 5)
           (mkSampler 8 (0, 0) 0 0 0 [4] [] [replicate 32 0] [])); reflexivity.
Defined.

Lemma getArray_size_mismatch_is_fatal_witness :
  getArray OneD 3 (mkSampler 8 (0, 0) 0 0 0 [4] [2] [replicate 32 0] [replicate 16 (0, 0)])
  = Fatal.
Proof.
  apply (getArray_size_mismatch_is_fatal OneD
           (mkSampler 8 (0, 0) 0 0 0 [4] [2] [replicate 32 0] [replicate 16 (0, 0)])
           3 4); simpl; [lia | reflexivity | lia].
Defined.

Lemma clones_with_same_seed_agree_witness :
  drive (RStartPixel (1, 2) :: [RGet1D; RGet1DArray 2; RGet2D; RStartNextSample; RGet1DArray 2])
        (clone 7 (mkRandomSampler (mkSampler 2 (0, 0) 0 0 0 [2] [] [[0; 0; 0; 0]] []) 5))
  = drive (RStartPixel (1, 2) :: [RGet1D; RGet1DArray 2; RGet2D; RStartNextSample; RGet1DArray 2])
        (clone 7 (mkRandomSampler (mkSampler 2 (3, 4) 1 1 0 [2] [] [[9; 8; 7; 6]] []) 11)).
Proof.
  apply (clones_with_same_seed_agree 7 (1, 2)); [repeat split | reflexivity].
Defined.

(** ** The Lambertian material *)

Import Lambertian.

(** C9: [computeScatteringFunctions] always leaves in [si.bsdf] the
    address of a container newly allocated in the arena (everything
    allocated before is untouched); the container holds no lobe when
    the reflectance is black and otherwise exactly one lobe, a
    [LambertianReflection] newly allocated in the same arena and
    carrying that reflectance. *)
Theorem computeScatteringFunctions_spec {Spectrum Geometry : Type}
    (isBlack : Spectrum -> bool) (m : LambertianMaterial (Spectrum := Spectrum))
    (si : SurfaceInteraction (Geometry := Geometry))
    (arena : MemoryArena (Spectrum := Spectrum) (Geometry := Geometry))
    (mode : TransportMode) (allowMultipleLobes : bool) :
  let si' := fst (computeScatteringFunctions isBlack m si arena mode allowMultipleLobes) in
  let arena' := snd (computeScatteringFunctions isBlack m si arena mode allowMultipleLobes) in
  bsdf si' = Some (length arena)
  /\ si_geometry si' = si_geometry si
  /\ take (length arena) arena' = arena
  /\ (if isBlack (m_Kr m)
      then arena' = arena ++ [ObjBSDF (si_geometry si) []]
           /\ lobes_at arena' (length arena) = Some []
      else arena' = arena ++ [ObjBSDF (si_geometry si) [S (length arena)];
                              ObjLambertianReflection (m_Kr m)]
           /\ lobes_at arena' (length arena)
              = Some [ObjLambertianReflection (m_Kr m)]).
Proof.
  unfold computeScatteringFunctions, ARENA_ALLOC. cbn zeta.
  unfold lobes_at, MemoryArena in *.
  destruct (isBlack (m_Kr m)); cbn [negb fst snd bsdf si_geometry].
  - split_and!; try done.
    + now rewrite take_app_length.
    + unfold lobes_at. now rewrite lookup_app_r, Nat.sub_diag by lia.
  - assert (Hadd : BSDF_add ((arena ++ [ObjBSDF (si_geometry si) []])
                             ++ [ObjLambertianReflection (m_Kr m)])
                     (length arena) (length (arena ++ [ObjBSDF (si_geometry si) []]))
                   = arena ++ [ObjBSDF (si_geometry si) [S (length arena)];
                               ObjLambertianReflection (m_Kr m)]).
    { unfold BSDF_add, MemoryArena. rewrite <- app_assoc.
      rewrite lookup_app_r, Nat.sub_diag by lia. simpl.
      rewrite insert_app_r_alt, Nat.sub_diag by lia. simpl.
      now rewrite length_app, Nat.add_1_r. }
    rewrite Hadd. split_and!; try done.
    + now rewrite take_app_length.
    + unfold lobes_at. rewrite lookup_app_r, Nat.sub_diag by lia. simpl.
      rewrite lookup_app_r by lia.
      now replace (S (length arena) - length arena)%nat with 1%nat by lia.
Qed.

(** * Further properties *)

(** ** The scheduler *)

(** [numSystemCores()] is the hardware's answer, except that an answer
    of 0 ("not computable") becomes 1. *)
Theorem numSystemCores_spec (hw : Z) :
  0 <= hw < 2 ^ 31 -> numSystemCores hw = Z.max 1 hw.
Proof.
  intros H. unfold numSystemCores, to_unsigned, INT_MOD.
  rewrite (Z.mod_small hw) by lia.
  apply to_int_small. lia.
Qed.

Lemma numSystemCores_spec_witness : numSystemCores 0 = Z.max 1 0.
Proof. apply numSystemCores_spec. lia. Defined.

(** The threads of the static split take contiguous chunks that,
    laid end to end in thread order, are [0, 1, ..., end - start - 1]:
    chunk [j] begins where chunk [j-1] stops and has [n / T] indices,
    plus one if [j < n mod T], for [n = end - start]. *)
Theorem static_split_tiles_zero_based_range (dchecks : bool) (T start end_ : Z) :
  1 <= T -> 0 <= start < end_ -> end_ < SIZE_MOD ->
  end_ - start + T <= INT_MAX ->
  exists cs, parallel_for dchecks T start end_ = Some cs
    /\ length cs = Z.to_nat T
    /\ mjoin cs = seqZ 0 (end_ - start)
    /\ (forall j : nat, Z.of_nat j < T ->
          cs !! j = Some (seqZ (even_split_bound T (end_ - start) (Z.of_nat j))
                           ((end_ - start) / T
                            + (if Z.of_nat j <? (end_ - start) mod T then 1 else 0)))).
Proof. apply parallel_for_tiles_from_zero. Qed.

Lemma static_split_tiles_zero_based_range_witness :
  exists cs, parallel_for true 4 0 10 = Some cs
    /\ length cs = Z.to_nat 4
    /\ mjoin cs = seqZ 0 (10 - 0)
    /\ (forall j : nat, Z.of_nat j < 4 ->
          cs !! j = Some (seqZ (even_split_bound 4 (10 - 0) (Z.of_nat j))
                           ((10 - 0) / 4
                            + (if Z.of_nat j <? (10 - 0) mod 4 then 1 else 0)))).
Proof.
  apply (static_split_tiles_zero_based_range true 4 0 10);
    unfold SIZE_MOD, INT_MAX; lia.
Defined.

(** No thread of the static split gets more than one index more than
    another, and an earlier thread never gets fewer than a later one. *)
Theorem static_split_is_balanced (dchecks : bool) (T start end_ : Z) :
  1 <= T -> 0 <= start < end_ -> end_ < SIZE_MOD ->
  end_ - start + T <= INT_MAX ->
  exists cs, parallel_for dchecks T start end_ = Some cs
    /\ forall (j k : nat) (cj ck : list Z),
         cs !! j = Some cj -> cs !! k = Some ck -> (j <= k)%nat ->
         (length ck <= length cj <= length ck + 1)%nat.
Proof.
  intros HT Hr He Hfit.
  destruct (parallel_for_tiles_from_zero dchecks T start end_)
    as (cs & Hcs & Hlen & _ & Hchunk); try done.
  exists cs. split; [done|]. intros j k cj ck Hj Hk Hjk.
  apply lookup_lt_Some in Hj as Hjlt. apply lookup_lt_Some in Hk as Hklt.
  rewrite Hchunk in Hj by lia. rewrite Hchunk in Hk by lia.
  injection Hj as <-. injection Hk as <-. rewrite !length_seqZ.
  assert (0 <= (end_ - start) / T) by (apply Z.div_pos; lia).
  destruct (Z.ltb_spec (Z.of_nat j) ((end_ - start) mod T));
    destruct (Z.ltb_spec (Z.of_nat k) ((end_ - start) mod T)); lia.
Qed.

Lemma static_split_is_balanced_witness :
  exists cs, parallel_for false 3 5 16 = Some cs
    /\ forall (j k : nat) (cj ck : list Z),
         cs !! j = Some cj -> cs !! k = Some ck -> (j <= k)%nat ->
         (length ck <= length cj <= length ck + 1)%nat.
Proof.
  apply (static_split_is_balanced false 3 5 16); unfold SIZE_MOD, INT_MAX; lia.
Defined.

Lemma to_int_multiple (k : Z) : to_int (k * 2 ^ 32) = 0.
Proof.
  unfold to_int, INT_MOD. rewrite Z.add_comm, Z_mod_plus_full.
  reflexivity.
Qed.

Lemma to_int_to_size_t (z : Z) : to_int (to_size_t z) = to_int z.
Proof.
  unfold to_int, to_size_t, SIZE_MOD, INT_MOD.
  f_equal. rewrite <- (Zplus_mod_idemp_l (z mod 2 ^ 64)).
  change (2 ^ 64) with (2 ^ 32 * 2 ^ 32).
  rewrite Z.rem_mul_r by lia.
  rewrite (Z.mul_comm (2 ^ 32)), Z_mod_plus_full, Z.mod_mod by lia.
  now rewrite Zplus_mod_idemp_l.
Qed.

(** An [int] holds the per-thread count, so a range of a multiple of
    [2^32] units given to a single thread is taken for an empty one:
    the callback is never invoked. *)
Theorem static_split_drops_multiples_of_2_32 (dchecks : bool) (start end_ k : Z) :
  0 <= start -> end_ < SIZE_MOD -> 1 <= k -> end_ - start = k * 2 ^ 32 ->
  parallel_for dchecks 1 start end_ = Some [[]].
Proof.
  intros Hs He Hk Hn. unfold parallel_for, DCHECK_fails, SIZE_MOD in *.
  replace (start <? end_) with true by (symmetry; apply Z.ltb_lt; lia).
  rewrite andb_false_r, to_size_t_small, Hn by lia.
  set (n := k * 2 ^ 32).
  assert (Hmax : n_max_tasks_per_thread 1 n = 0).
  { unfold n_max_tasks_per_thread. rewrite to_int_to_size_t.
    change (to_size_t 1) with 1. rewrite Z.div_1_r, Z.mod_1_r. simpl.
    rewrite Z.add_0_r. apply to_int_multiple. }
  assert (Hlack : n_lacking_tasks 1 n = 0).
  { unfold n_lacking_tasks. rewrite Hmax, to_int_to_size_t.
    change (to_size_t (to_int (0 * 1))) with 0.
    replace (0 - n) with (- k * 2 ^ 32) by (subst n; lia).
    apply to_int_multiple. }
  unfold chunks. change (seqZ 0 1) with [0]. simpl. f_equal. f_equal.
  unfold inner_loop, exclusive_end_index, inclusive_start_index,
    n_lacking_tasks_so_far, lacking_offset.
  rewrite Hmax, Hlack. reflexivity.
Qed.

Lemma static_split_drops_multiples_of_2_32_witness :
  parallel_for false 1 0 (3 * 2 ^ 32) = Some [[]].
Proof.
  apply (static_split_drops_multiples_of_2_32 false 0 (3 * 2 ^ 32) 3);
    unfold SIZE_MOD; lia.
Defined.

Lemma call_index_serial_loop start end_ :
  call_index <$> serial_loop start end_ = seqZ start (end_ - start).
Proof.
  unfold serial_loop. rewrite <- list_fmap_compose.
  rewrite <- (list_fmap_id (seqZ start (end_ - start))) at 2.
  apply list_fmap_ext. done.
Qed.

(** Whenever the dispatcher returns under [PARALLEL], the callback has
    been invoked on just the indices the [SERIAL] loop invokes it on,
    each as often (the range must leave room for the cursor's last
    fetches). *)
Theorem parallelFor_policies_do_the_same_work (dchecks : bool)
    (T start end_ : Z) (sched sched' : list nat) (cs : list Call) :
  1 <= T -> 0 <= start -> end_ + T <= SIZE_MOD ->
  parallelFor dchecks T start end_ PARALLEL sched = Returned cs ->
  call_index <$> cs
  ≡ₚ call_index <$> calls_of (parallelFor dchecks T start end_ SERIAL sched').
Proof.
  intros HT Hs Hw. unfold parallelFor.
  destruct (Z.ltb_spec end_ start) as [Hlt|Hle].
  - now intros [= <-].
  - unfold parallel_for_seize. destruct (DCHECK_fails _ _); [done|].
    destruct (all_joined _) eqn:Hall; [|done]. intros [= <-].
    rewrite (seize_run_joined T start end_) by (done || lia).
    simpl. now rewrite call_index_serial_loop.
Qed.

Lemma parallelFor_policies_do_the_same_work_witness :
  call_index <$> [(Worker 1, 3); (Worker 0, 4); (Worker 1, 5)]
  ≡ₚ call_index <$> calls_of (parallelFor true 2 3 6 SERIAL []).
Proof.
  apply (parallelFor_policies_do_the_same_work true 2 3 6
           [1; 0; 1; 1; 0]%nat []);
    [lia | lia | unfold SIZE_MOD; lia | reflexivity].
Defined.

Lemma StronglySorted_seqZ m len : StronglySorted Z.lt (seqZ m len).
Proof.
  destruct (Z.le_gt_cases len 0) as [H|H].
  { rewrite seqZ_nil by done. constructor. }
  replace len with (Z.of_nat (Z.to_nat len)) by lia.
  induction (Z.to_nat len) as [|k IH]; [constructor|].
  rewrite seqZ_S. apply StronglySorted_app. split_and!; [|done|repeat constructor].
  intros x y Hx%elem_of_seqZ Hy%list_elem_of_singleton. lia.
Qed.

Lemma StronglySorted_worker_filter (j : nat) (cs : list Call) :
  StronglySorted Z.lt (call_index <$> cs) ->
  StronglySorted Z.lt (indices_of_worker j cs).
Proof.
  unfold indices_of_worker.
  induction cs as [|c cs IH]; [done|]. rewrite fmap_cons, StronglySorted_cons.
  intros [Hall Hs]. rewrite filter_cons. case_decide; [|auto].
  rewrite fmap_cons. apply StronglySorted_cons. split; [|auto].
  apply Forall_forall. intros x Hx.
  rewrite Forall_forall in Hall. apply Hall.
  apply list_elem_of_fmap in Hx as (c' & -> & Hc').
  apply list_elem_of_filter in Hc' as [_ Hc'].
  apply list_elem_of_fmap. by exists c'.
Qed.

(** Under the atomic seize each worker only moves forward: the indices
    one worker processes are strictly increasing, under every schedule
    and at every moment. *)
Theorem seize_worker_indices_increase (dchecks : bool) (T start end_ : Z)
    (sched : list nat) (j : nat) :
  1 <= T -> 0 <= start <= end_ -> end_ + T <= SIZE_MOD ->
  StronglySorted Z.lt
    (indices_of_worker j (calls_of (parallel_for_seize dchecks T start end_ sched))).
Proof.
  intros HT Hr Hw. apply StronglySorted_worker_filter.
  unfold parallel_for_seize. destruct (DCHECK_fails _ _); [constructor|].
  destruct (seize_run_calls T start end_ Hr HT Hw sched) as (len & _ & Hcalls).
  destruct (all_joined _); simpl; rewrite Hcalls; apply StronglySorted_seqZ.
Qed.

Lemma seize_worker_indices_increase_witness :
  StronglySorted Z.lt
    (indices_of_worker 1
       (calls_of (parallel_for_seize false 2 3 9 [1; 0; 1; 1; 0; 0; 1; 0]%nat))).
Proof.
  apply (seize_worker_indices_increase false 2 3 9); unfold SIZE_MOD; lia.
Defined.

(** ** [AtomicFloat] *)

Section atomic_float_facts.
Context {Float : Type} `{!FloatBits Float}.

Lemma join_insert_tail (ls : list (list Float)) (j : nat) (v : Float)
    (rest : list Float) :
  ls !! j = Some (v :: rest) -> v :: mjoin (<[j := rest]> ls) ≡ₚ mjoin ls.
Proof.
  revert j. induction ls as [|l ls IH]; intros [|j] H; simplify_eq/=.
  - done.
  - rewrite <- (IH j H). apply Permutation_middle.
Qed.

Lemma todo_insert_same (l : list (Adder Float)) (j : nat) (a b : Adder Float) :
  l !! j = Some a -> todo b = todo a ->
  todo <$> <[j := b]> l = todo <$> l.
Proof.
  intros Hj Hb. rewrite list_fmap_insert, Hb.
  apply list_insert_id. now rewrite list_lookup_fmap, Hj.
Qed.

Lemma todo_of_init (programs : list (list Float)) :
  todo <$> ((fun p => mkAdder p None) <$> programs) = programs.
Proof.
  induction programs as [|p ps IH]; [done|].
  rewrite !fmap_cons, IH. reflexivity.
Qed.

(** What every step of every thread keeps true. *)
Lemma add_step_invariant (b0 : Z) (all : list Float) (s : AddState Float)
    (turn : nat * bool) :
  bits s = foldl new_bits b0 (applied s) ->
  applied s ++ mjoin (todo <$> adders s) ≡ₚ all ->
  bits (add_step s turn) = foldl new_bits b0 (applied (add_step s turn))
  /\ applied (add_step s turn) ++ mjoin (todo <$> adders (add_step s turn)) ≡ₚ all.
Proof.
  intros Hb Hp. destruct turn as [j spurious]. unfold add_step.
  destruct (adders s !! j) as [[[|v rest] [old|]]|] eqn:Hj; try done.
  - destruct (Z.eqb_spec (bits s) old) as [<-|Hne]; simpl.
    + destruct spurious; simpl.
      * now rewrite (todo_insert_same _ _ _ _ Hj).
      * split; [now rewrite foldl_snoc, Hb|].
        rewrite <- Hp, <- app_assoc. apply Permutation_app_head. simpl.
        rewrite list_fmap_insert. simpl. apply join_insert_tail.
        now rewrite list_lookup_fmap, Hj.
    + now rewrite (todo_insert_same _ _ _ _ Hj).
  - simpl. now rewrite (todo_insert_same _ _ _ _ Hj).
Qed.

Lemma add_run_invariant (b0 : Z) (all : list Float) (sched : list (nat * bool)) :
  forall s : AddState Float,
  bits s = foldl new_bits b0 (applied s) ->
  applied s ++ mjoin (todo <$> adders s) ≡ₚ all ->
  bits (add_run sched s) = foldl new_bits b0 (applied (add_run sched s))
  /\ applied (add_run sched s) ++ mjoin (todo <$> adders (add_run sched s)) ≡ₚ all.
Proof.
  induction sched as [|turn sched IH]; intros s Hb Hp; [done|].
  destruct (add_step_invariant b0 all s turn Hb Hp). now apply IH.
Qed.

Lemma all_added_nothing_left (s : AddState Float) :
  all_added s = true -> mjoin (todo <$> adders s) = [].
Proof.
  unfold all_added. rewrite forallb_forall. intros H.
  apply join_nil_2, Forall_forall. intros l Hl.
  apply list_elem_of_fmap in Hl as (a & -> & Ha%list_elem_of_In).
  specialize (H a Ha). unfold adder_done in H. now destruct (todo a).
Qed.

(** No addition is lost or made twice: however the threads interleave
    and however often [compare_exchange_weak] fails, spuriously or
    not, the shared bits are always what adding the values in
    [applied], one after another, to the initial bits gives, and the
    values applied together with the values still to be added are the
    values the threads were asked to add. *)
Theorem atomic_add_no_lost_update (b0 : Z) (programs : list (list Float))
    (sched : list (nat * bool)) :
  let s := add_run sched (add_init b0 programs) in
  bits s = foldl new_bits b0 (applied s)
  /\ applied s ++ mjoin (todo <$> adders s) ≡ₚ mjoin programs.
Proof.
  apply add_run_invariant; simpl; [done|]. now rewrite todo_of_init.
Qed.

Lemma foldl_replicate (f : Z -> Float -> Z) (b : Z) (n : nat) (v : Float) :
  foldl f b (replicate n v) = Nat.iter n (fun b => f b v) b.
Proof.
  revert b. induction n as [|n IH]; intros b; [done|].
  simpl. rewrite IH. clear IH.
  induction n as [|n IH]; [done|]. simpl. now rewrite IH.
Qed.

Lemma join_replicate_replicate (K M : nat) (v : Float) :
  mjoin (replicate K (replicate M v)) = replicate (K * M) v.
Proof.
  induction K as [|K IH]; [done|]. simpl. now rewrite IH, replicate_add.
Qed.

(** [K] threads that each call [add(v)] [M] times leave, once all are
    done, the bits that [K * M] calls of [add(v)] made one after
    another leave, under every interleaving. *)
Theorem atomic_add_same_value (b0 : Z) (K M : nat) (v : Float)
    (sched : list (nat * bool)) :
  all_added (add_run sched (add_init b0 (replicate K (replicate M v)))) = true ->
  bits (add_run sched (add_init b0 (replicate K (replicate M v))))
  = Nat.iter (K * M) (AtomicFloat_add v) b0.
Proof.
  intros Hdone.
  destruct (add_run_invariant b0 (mjoin (replicate K (replicate M v))) sched
              (add_init b0 (replicate K (replicate M v)))) as [Hb Hp].
  { done. }
  { simpl. now rewrite todo_of_init. }
  rewrite (all_added_nothing_left _ Hdone), app_nil_r in Hp.
  rewrite join_replicate_replicate in Hp. symmetry in Hp.
  apply replicate_Permutation in Hp.
  rewrite Hb, <- Hp. apply foldl_replicate.
Qed.

(** A call of [add(v)] that no other thread interferes with and whose
    exchange does not fail spuriously takes two steps and replaces the
    bits by those of [bitsToFloat(bits) + v]. *)
Theorem atomic_add_alone (s : AddState Float) (j : nat) (v : Float) (rest : list Float) :
  adders s !! j = Some (mkAdder (v :: rest) None) ->
  add_run [(j, false); (j, false)] s
  = mkAdd (AtomicFloat_add v (bits s)) (<[j := mkAdder rest None]> (adders s))
          (applied s ++ [v]).
Proof.
  intros Hj. apply lookup_lt_Some in Hj as Hlt.
  unfold add_run. simpl. rewrite Hj. simpl.
  rewrite list_lookup_insert_eq by done. simpl.
  rewrite Z.eqb_refl. simpl. now rewrite list_insert_insert_eq.
Qed.
End atomic_float_facts.

Lemma atomic_add_same_value_witness :
  bits (add_run [(0, false); (1, false); (0, false); (1, true); (1, false); (1, false)]%nat
          (add_init 10 (replicate 2 (replicate 1 5))))
  = Nat.iter (2 * 1) (AtomicFloat_add 5) 10.
Proof.
  apply (atomic_add_same_value 10 2 1 5). reflexivity.
Defined.

Lemma atomic_add_alone_witness :
  add_run [(1, false); (1, false)]%nat (add_init 10 [[1; 2]; [5]])
  = mkAdd (AtomicFloat_add 5 (bits (add_init 10 [[1; 2]; [5]])))
          (<[1%nat := mkAdder [] None]> (adders (add_init 10 [[1; 2]; [5]])))
          (applied (add_init 10 [[1; 2]; [5]]) ++ [5]).
Proof. apply (atomic_add_alone (add_init 10 [[1; 2]; [5]]) 1 5 []). reflexivity. Defined.

(** ** The sampler, further *)

Section sampler_safety.
Context {Float Rng : Type} `{!SamplerDeps Float Rng}.

Lemma buffers_match_lengths {T : Type} (spp : Z) (sizes : list Z)
    (b1 b2 : list (list T)) :
  length <$> b1 = length <$> b2 ->
  buffers_match spp sizes b1 -> buffers_match spp sizes b2.
Proof.
  unfold buffers_match. intros Hlen H.
  apply Forall2_same_length_lookup. apply Forall2_same_length_lookup in H as [Hl H].
  assert (Hl2 : length b1 = length b2).
  { apply (f_equal length) in Hlen. now rewrite !length_fmap in Hlen. }
  split; [congruence|]. intros i n buf Hn Hbuf.
  destruct (b1 !! i) as [buf1|] eqn:Hb1.
  - rewrite <- (H i n buf1 Hn Hb1).
    apply (f_equal (fun l => l !! i)) in Hlen.
    rewrite !list_lookup_fmap, Hb1, Hbuf in Hlen. simpl in Hlen. congruence.
  - apply lookup_ge_None in Hb1. apply lookup_lt_Some in Hbuf. lia.
Qed.

Lemma registries_ok_new (spp : Z) (uninit : Vector2i * Z * nat * nat) :
  registries_ok (Sampler_new (Float := Float) spp uninit).
Proof. destruct uninit as [[[? ?] ?] ?]. split; constructor. Qed.

Lemma new_buffer_length {T : Type} (zero : T) (count : Z) (buf : list T) :
  new_buffer zero count = Done buf -> Z.of_nat (length buf) = count.
Proof.
  unfold new_buffer. destruct (Z.ltb_spec count 0); [done|].
  intros [= <-]. rewrite length_replicate. lia.
Qed.

Lemma requestArray_keeps (d : Dimension) (n : Z) (s s' : Sampler Float) :
  requestArray d n s = Done s' ->
  (registries_ok s -> registries_ok s')
  /\ (cursors_ok s -> cursors_ok s').
Proof.
  destruct d; simpl; unfold request1DArray, request2DArray;
    destruct (negb _); try done;
    destruct (new_buffer _ _) as [buf| |] eqn:Hbuf; try done;
    intros [= <-]; apply new_buffer_length in Hbuf;
    (split; intros [H1 H2]; split; simpl in *;
       rewrite ?length_app; try done; try lia;
       apply Forall2_app; [done | by constructor]).
Qed.

Lemma register_all_keeps (regs : list (Dimension * Z)) :
  forall s s' : Sampler Float,
  register_all regs s = Done s' -> registries_ok s -> registries_ok s'.
Proof.
  induction regs as [|[d n] regs IH]; intros s s' H Hs; simpl in H.
  - now injection H as <-.
  - destruct (requestArray d n s) as [s1| |] eqn:Hreq; try done.
    apply (IH s1 s' H). now apply (requestArray_keeps d n s s1 Hreq).
Qed.


Lemma well_formed_RandomSampler_startPixel (p : Vector2i)
    (rs : RandomSampler Float Rng) :
  registries_ok (base rs) -> well_formed (base (RandomSampler_startPixel p rs)).
Proof.
  intros [H1 H2]. rewrite RandomSampler_startPixel_eq. cbn zeta.
  repeat split; simpl; try lia.
  - apply (buffers_match_lengths _ _ (m_sampleArray1D (base rs))); [|done].
    symmetry. apply refill_all_spec.
  - apply (buffers_match_lengths _ _ (m_sampleArray2D (base rs))); [|done].
    symmetry. apply refill_all_spec.
Qed.

Lemma element_address_Done {T : Type} (buffers : list (list T)) (offset : nat)
    (index : Z) (a : option ArrayView) :
  element_address buffers offset index = Done a ->
  exists buf, buffers !! offset = Some buf
    /\ ((a = Some (mkView offset index) /\ 0 <= index < Z.of_nat (length buf))
        \/ (a = None /\ index = 0 /\ length buf = 0%nat)).
Proof.
  unfold element_address. destruct (buffers !! offset) as [buf|]; [|done].
  destruct ((0 <=? index) && (index <? Z.of_nat (length buf))) eqn:E1.
  - apply andb_true_iff in E1 as [H1%Z.leb_le H2%Z.ltb_lt].
    intros [= <-]. exists buf. split; [done|]. left. split; [done|lia].
  - destruct ((index =? 0) && (Z.of_nat (length buf) =? 0)) eqn:E2; [|done].
    apply andb_true_iff in E2 as [H1%Z.eqb_eq H2%Z.eqb_eq].
    intros [= <-]. exists buf. split; [done|]. right. split_and!; [done|done|lia].
Qed.

Lemma element_address_defined {T : Type} (buffers : list (list T)) (offset : nat)
    (buf : list T) (n spp i : Z) :
  buffers !! offset = Some buf -> Z.of_nat (length buf) = n * spp ->
  0 <= i < spp -> element_address buffers offset (i * n) <> Undefined.
Proof.
  intros Hb Hlen Hi. unfold element_address. rewrite Hb.
  destruct (Z.leb_spec 0 (i * n)); destruct (Z.ltb_spec (i * n) (Z.of_nat (length buf)));
    simpl; try done;
    destruct (Z.eqb_spec (i * n) 0); destruct (Z.eqb_spec (Z.of_nat (length buf)) 0);
    simpl; try done; nia.
Qed.

(** What a request for an array does when it returns. *)
Lemma getArray_Done (d : Dimension) (n : Z) (s s' : Sampler Float)
    (v : option ArrayView) :
  getArray d n s = Done (v, s') ->
  samplesPerPixel s' = samplesPerPixel s
  /\ m_currentPixel s' = m_currentPixel s
  /\ m_currentPixelSampleIndex s' = m_currentPixelSampleIndex s
  /\ m_samples1DArraySizes s' = m_samples1DArraySizes s
  /\ m_samples2DArraySizes s' = m_samples2DArraySizes s
  /\ m_sampleArray1D s' = m_sampleArray1D s
  /\ m_sampleArray2D s' = m_sampleArray2D s
  /\ ((v = None /\ s' = s /\ cursor d s = registered d s)
      \/ (cursor d s <> registered d s
          /\ recorded_sizes d s !! cursor d s = Some n
          /\ m_currentPixelSampleIndex s < samplesPerPixel s
          /\ cursor d s' = S (cursor d s)
          /\ (match d with
              | OneD => m_array2DOffset s' = m_array2DOffset s
              | TwoD => m_array1DOffset s' = m_array1DOffset s
              end)
          /\ exists len : nat,
               buffer_lengths d s !! cursor d s = Some len
               /\ ((v = Some (mkView (cursor d s) (m_currentPixelSampleIndex s * n))
                    /\ 0 <= m_currentPixelSampleIndex s * n < Z.of_nat len)
                   \/ (v = None /\ m_currentPixelSampleIndex s * n = 0
                       /\ len = 0%nat)))).
Proof.
  destruct d; simpl; unfold get1DArray, get2DArray;
    (case_decide as Hc; [intros [= <- <-]; split_and!; try done; by left|]);
    destruct (_ !! _) as [size|] eqn:Hsz; try done;
    destruct (Z.eqb_spec size n) as [->|]; try done; simpl;
    destruct (Z.ltb_spec (m_currentPixelSampleIndex s) (samplesPerPixel s));
    try done; simpl;
    destruct (element_address _ _ _) as [a| |] eqn:Ha; try done;
    apply element_address_Done in Ha as (buf & Hbuf & Hcase);
    intros [= <- <-]; simpl; split_and!; try done;
    right; split_and!; try done;
    exists (length buf); (split; [by rewrite list_lookup_fmap, Hbuf|]);
    (destruct Hcase as [[-> ?]|(-> & ? & ?)]; [by left|by right]).
Qed.

Lemma buffers_match_length {T : Type} (spp : Z) (sizes : list Z)
    (buffers : list (list T)) :
  buffers_match spp sizes buffers -> length sizes = length buffers.
Proof. apply Forall2_length. Qed.

Lemma registered_sizes (d : Dimension) (s : Sampler Float) :
  registries_ok s -> length (recorded_sizes d s) = registered d s.
Proof.
  intros [H1 H2]. destruct d; simpl;
    eapply buffers_match_length; eassumption.
Qed.

(** The buffer that goes with a recorded size. *)
Lemma registered_buffer (d : Dimension) (s : Sampler Float) (c : nat) (n : Z) :
  registries_ok s -> recorded_sizes d s !! c = Some n ->
  exists len : nat, buffer_lengths d s !! c = Some len
    /\ Z.of_nat len = n * samplesPerPixel s.
Proof.
  intros [Hr1 Hr2] Hsz. destruct d; simpl in *.
  - destruct (Forall2_lookup_l _ _ _ _ _ Hr1 Hsz) as (buf & Hb & Hlen).
    exists (length buf). now rewrite list_lookup_fmap, Hb.
  - destruct (Forall2_lookup_l _ _ _ _ _ Hr2 Hsz) as (buf & Hb & Hlen).
    exists (length buf). now rewrite list_lookup_fmap, Hb.
Qed.

Lemma getArray_defined (d : Dimension) (n : Z) (s : Sampler Float) :
  well_formed s -> 0 <= m_currentPixelSampleIndex s ->
  getArray d n s <> Undefined.
Proof.
  intros [Hreg [Hc1 Hc2]] Hi.
  pose proof (registered_sizes OneD s Hreg) as H1.
  pose proof (registered_sizes TwoD s Hreg) as H2. simpl in H1, H2.
  destruct Hreg as [Hr1 Hr2].
  destruct d; simpl; unfold get1DArray, get2DArray;
    (case_decide as Hc; [done|]);
    (destruct (_ !! _) as [size|] eqn:Hsz;
       [| apply lookup_ge_None in Hsz; lia]);
    destruct (Z.eqb_spec size n) as [->|]; try done; simpl;
    destruct (Z.ltb_spec (m_currentPixelSampleIndex s) (samplesPerPixel s));
    try done; simpl.
  - destruct (Forall2_lookup_l _ _ _ _ _ Hr1 Hsz) as (buf & Hb & Hlen).
    pose proof (element_address_defined _ _ buf n (samplesPerPixel s)
                  (m_currentPixelSampleIndex s) Hb Hlen ltac:(lia)) as Hd.
    now destruct (element_address _ _ _).
  - destruct (Forall2_lookup_l _ _ _ _ _ Hr2 Hsz) as (buf & Hb & Hlen).
    pose proof (element_address_defined _ _ buf n (samplesPerPixel s)
                  (m_currentPixelSampleIndex s) Hb Hlen ltac:(lia)) as Hd.
    now destruct (element_address _ _ _).
Qed.


Lemma read_view_in_bounds {T : Type} (buffers : list (list T)) (a : nat)
    (first n : Z) (buf : list T) :
  buffers !! a = Some buf -> 0 <= first -> 0 <= n ->
  first + n <= Z.of_nat (length buf) ->
  read_view buffers (mkView a first) n
  = Some (take (Z.to_nat n) (drop (Z.to_nat first) buf)).
Proof.
  intros Hb H1 H2 H3. unfold read_view. simpl. rewrite Hb.
  replace (0 <=? first) with true by (symmetry; apply Z.leb_le; lia).
  replace (0 <=? n) with true by (symmetry; apply Z.leb_le; lia).
  now replace (first + n <=? Z.of_nat (length buf)) with true
    by (symmetry; apply Z.leb_le; lia).
Qed.

(** The elements behind a pointer that a request returned can all be
    read. *)
Lemma returned_view_readable (d : Dimension) (n : Z) (s s' : Sampler Float)
    (v : ArrayView) :
  registries_ok s -> 0 <= m_currentPixelSampleIndex s ->
  getArray d n s = Done (Some v, s') ->
  v = mkView (cursor d s) (m_currentPixelSampleIndex s * n)
  /\ exists len : nat,
       buffer_lengths d s !! cursor d s = Some len
       /\ 0 < n /\ 0 <= view_first v /\ view_first v + n <= Z.of_nat len.
Proof.
  intros Hreg Hi H.
  destruct (getArray_Done d n s s' (Some v) H)
    as (_ & _ & _ & _ & _ & _ & _ & [[? _]|(_ & Hsz & Hlt & _ & _ & len & Hlen & Hv)]);
    [done|].
  destruct Hv as [[[= ->] Hrange]|[? _]]; [|done].
  split; [done|].
  destruct (registered_buffer d s _ n Hreg Hsz) as (len' & Hlen' & Hsize).
  rewrite Hlen in Hlen'. injection Hlen' as <-.
  exists len. simpl. split; [done|]. nia.
Qed.





End sampler_safety.



Section sampler_protocol.
Context {Float Rng : Type} `{!SamplerDeps Float Rng}.

Lemma getArray_hit (d : Dimension) (n : Z) (s : Sampler Float) :
  registries_ok s ->
  cursor d s <> registered d s ->
  recorded_sizes d s !! cursor d s = Some n ->
  0 < n ->
  0 <= m_currentPixelSampleIndex s < samplesPerPixel s ->
  exists s', getArray d n s
             = Done (Some (mkView (cursor d s) (m_currentPixelSampleIndex s * n)), s').
Proof.
  intros [Hr1 Hr2] Hc Hsz Hn Hi.
  assert (Hlt : (m_currentPixelSampleIndex s <? samplesPerPixel s) = true)
    by (apply Z.ltb_lt; lia).
  destruct d; simpl in *; unfold get1DArray, get2DArray;
    (case_decide; [done|]); rewrite Hsz, Z.eqb_refl, Hlt; simpl.
  - destruct (Forall2_lookup_l _ _ _ _ _ Hr1 Hsz) as (buf & Hb & Hlen).
    rewrite (element_address_in_range _ _ _ buf Hb) by nia. eauto.
  - destruct (Forall2_lookup_l _ _ _ _ _ Hr2 Hsz) as (buf & Hb & Hlen).
    rewrite (element_address_in_range _ _ _ buf Hb) by nia. eauto.
Qed.

Lemma serve_arrays_exhausted (d : Dimension) (extra : list Z) (s : Sampler Float) :
  cursor d s = registered d s ->
  serve_arrays d extra s = Done (replicate (length extra) None, s).
Proof.
  intros Hc. induction extra as [|n extra IH]; [done|]. simpl.
  assert (Hget : getArray d n s = Done (None, s)).
  { destruct d; simpl in *; unfold get1DArray, get2DArray; now case_decide. }
  rewrite Hget. simpl. now rewrite IH.
Qed.

Lemma serve_arrays_from (d : Dimension) (extra : list Z) (ns : list Z) :
  forall (pre : list Z) (s : Sampler Float),
  registries_ok s ->
  recorded_sizes d s = pre ++ ns ->
  cursor d s = length pre ->
  Forall (Z.lt 0) ns ->
  0 <= m_currentPixelSampleIndex s < samplesPerPixel s ->
  exists s',
    serve_arrays d (ns ++ extra) s
    = Done (imap (fun i n => Some (mkView (length pre + i)
                                     (m_currentPixelSampleIndex s * n))) ns
            ++ replicate (length extra) None, s')
    /\ cursor d s' = registered d s.
Proof.
  induction ns as [|n ns IH]; intros pre s Hok Hsz Hc Hpos Hi;
    pose proof (registered_sizes d s Hok) as Hreg.
  - exists s. rewrite app_nil_r in Hsz. simpl. split.
    + apply serve_arrays_exhausted. now rewrite <- Hreg, Hsz.
    + now rewrite <- Hreg, Hsz.
  - apply Forall_cons in Hpos as [Hn Hpos].
    assert (Hlook : recorded_sizes d s !! cursor d s = Some n).
    { rewrite Hsz, Hc. now rewrite lookup_app_r, Nat.sub_diag by lia. }
    assert (Hne : cursor d s <> registered d s).
    { rewrite <- Hreg, Hsz, Hc, length_app. simpl. lia. }
    destruct (getArray_hit d n s Hok Hne Hlook Hn Hi) as [s1 Hget].
    destruct (getArray_Done d n s s1 _ Hget)
      as (Hspp & _ & Hidx & Hz1 & Hz2 & Ha1 & Ha2
          & [(? & _)|(_ & _ & _ & Hcur & _)]); [done|].
    assert (Hsz1 : recorded_sizes d s1 = recorded_sizes d s)
      by (destruct d; simpl; done).
    assert (Hreg1 : registered d s1 = registered d s)
      by (destruct d; simpl; congruence).
    assert (Hok1 : registries_ok s1).
    { destruct Hok as [H1 H2].
      split; rewrite ?Hspp, ?Hz1, ?Hz2, ?Ha1, ?Ha2; done. }
    destruct (IH (pre ++ [n]) s1) as (s' & Hserve & Hfinal).
    { done. }
    { now rewrite Hsz1, Hsz, <- app_assoc. }
    { rewrite Hcur, Hc, length_app. simpl. lia. }
    { done. }
    { congruence. }
    exists s'. split; [|congruence].
    cbn [app serve_arrays]. rewrite Hget. cbn [and_then].
    rewrite Hserve, Hidx. cbn [and_then]. rewrite imap_cons, Hc, Nat.add_0_r.
    cbn [app]. do 4 f_equal.
    apply imap_ext. intros i x _. simpl. rewrite length_app. simpl.
    do 2 f_equal. lia.
Qed.

(** Within a pixel sample the registered arrays of one dimensionality
    are handed out in the order of their registration: when every
    registered size is positive and the sample index is in range,
    asking for the registered sizes in that order yields pointers into
    buffers 0, 1, 2, ..., each at [index * size], and every further
    request yields [nullptr].  (An array registered with size 0 has an
    empty buffer; a request for it yields the null pointer that also
    signals that no array is left, so such registrations are left
    out.) *)
Theorem arrays_served_in_registration_order (d : Dimension) (extra : list Z)
    (s : Sampler Float) :
  registries_ok s -> cursor d s = 0%nat ->
  Forall (Z.lt 0) (recorded_sizes d s) ->
  0 <= m_currentPixelSampleIndex s < samplesPerPixel s ->
  exists s',
    serve_arrays d (recorded_sizes d s ++ extra) s
    = Done (imap (fun i n => Some (mkView i (m_currentPixelSampleIndex s * n)))
              (recorded_sizes d s)
            ++ replicate (length extra) None, s')
    /\ cursor d s' = registered d s.
Proof.
  intros Hreg Hc Hpos Hi.
  now apply (serve_arrays_from d extra (recorded_sizes d s) [] s).
Qed.

(** Once [startNextSample] has returned [false], [get1D] and [get2D]
    abort, and so does a request for an array of either
    dimensionality, unless no array of that dimensionality was
    registered, in which case the request still returns [nullptr]. *)
Theorem getters_abort_after_last_sample (rs : RandomSampler Float Rng)
    (d : Dimension) (n : Z) :
  registries_ok (base rs) ->
  fst (startNextSample (base rs)) = false ->
  let rs' := lift_base rs (snd (startNextSample (base rs))) in
  get1D rs' = Fatal
  /\ get2D rs' = Fatal
  /\ getArray d n (base rs')
     = if decide (registered d (base rs) = 0%nat) then Done (None, base rs')
       else Fatal.
Proof.
  intros Hreg Hlast. cbn zeta.
  unfold startNextSample in *. simpl in *.
  unfold get1D, get2D. simpl. rewrite Hlast. simpl. split_and!; try done.
  pose proof (registered_sizes d (base rs) Hreg) as Hlen.
  destruct d; simpl in *; unfold get1DArray, get2DArray; simpl;
    rewrite Hlast; simpl.
  - destruct (m_sampleArray1D (base rs)) as [|b bs]; simpl in *;
      repeat case_decide; try done.
    destruct (m_samples1DArraySizes (base rs)) as [|z zs]; [done|]. simpl.
    now destruct (negb (z =? n)).
  - destruct (m_sampleArray2D (base rs)) as [|b bs]; simpl in *;
      repeat case_decide; try done.
    destruct (m_samples2DArraySizes (base rs)) as [|z zs]; [done|]. simpl.
    now destruct (negb (z =? n)).
Qed.

Lemma advance_fields (k : nat) (p : Vector2i) (s : Sampler Float) :
  advance k (startPixel p s)
  = mkSampler (samplesPerPixel s) p (Z.of_nat k) 0 0
      (m_samples1DArraySizes s) (m_samples2DArraySizes s)
      (m_sampleArray1D s) (m_sampleArray2D s).
Proof.
  induction k as [|k IH]; [done|].
  cbn [advance]. rewrite IH. unfold startNextSample, set_cursor. simpl.
  f_equal. lia.
Qed.

(** A pixel gets [samplesPerPixel] samples: after [startPixel] and [k]
    calls of [startNextSample] the sample index is [k], and the next
    call returns [true] exactly when [k + 1 < samplesPerPixel]. *)
Theorem startNextSample_counts_samples (k : nat) (p : Vector2i) (s : Sampler Float) :
  m_currentPixelSampleIndex (advance k (startPixel p s)) = Z.of_nat k
  /\ m_currentPixel (advance k (startPixel p s)) = p
  /\ (fst (startNextSample (advance k (startPixel p s))) = true
      <-> Z.of_nat k + 1 < samplesPerPixel s).
Proof.
  rewrite advance_fields. unfold startNextSample. simpl.
  split_and!; try done. apply Z.ltb_lt.
Qed.

(** [get2D()] is two [get1D()] in a row: the same two values, first
    component first, the same generator afterwards, and an abort in
    the same states. *)
Theorem get2D_is_get1D_twice (rs : RandomSampler Float Rng) :
  get2D rs = get1D_twice rs.
Proof.
  unfold get2D, get1D_twice, get1D, draw2.
  destruct (negb _) eqn:Hidx; [done|].
  destruct (uniformFloat (m_rng rs)) as [x r1]. simpl. rewrite Hidx.
  now destruct (uniformFloat r1) as [y r2].
Qed.

Lemma draws_draw2 (k : nat) (r : Rng) :
  snd (draws draw2 k r) = snd (draws uniformFloat (2 * k) r).
Proof.
  revert r. induction k as [|k IH]; intros r; [done|].
  replace (2 * S k)%nat with (S (S (2 * k))) by lia.
  remember (2 * k)%nat as m eqn:Hm. cbn [draws].
  destruct (draw2 r) as [v r2'] eqn:Hd. unfold draw2 in Hd.
  destruct (uniformFloat r) as [x r1].
  destruct (uniformFloat r1) as [y r2]. injection Hd as <- <-.
  specialize (IH r2).
  destruct (draws draw2 k r2) as [vs r3].
  destruct (draws uniformFloat m r2) as [xs r4]. exact IH.
Qed.

Lemma length_join_buffers {T : Type} (spp : Z) (sizes : list Z)
    (buffers : list (list T)) :
  buffers_match spp sizes buffers ->
  Z.of_nat (length (mjoin buffers)) = spp * total_size sizes.
Proof.
  induction 1 as [|n buf sizes buffers Hlen _ IH]; simpl; [lia|].
  rewrite length_app. lia.
Qed.

(** [RandomSampler::startPixel] advances the generator by one draw per
    registered 1D slot and two per registered 2D slot, that is by
    [samplesPerPixel * (sum of the 1D sizes + 2 * sum of the 2D sizes)]
    draws, whatever the pixel. *)
Theorem startPixel_draw_count (p : Vector2i) (rs : RandomSampler Float Rng) :
  registries_ok (base rs) ->
  m_rng (RandomSampler_startPixel p rs)
  = snd (draws uniformFloat
           (Z.to_nat (samplesPerPixel (base rs)
                      * (total_size (m_samples1DArraySizes (base rs))
                         + 2 * total_size (m_samples2DArraySizes (base rs)))))
           (m_rng rs)).
Proof.
  intros [H1 H2]. rewrite RandomSampler_startPixel_eq. cbn zeta. simpl.
  apply length_join_buffers in H1, H2.
  destruct (refill_all_spec uniformFloat (m_sampleArray1D (base rs)) (m_rng rs))
    as [_ Hd1].
  destruct (refill_all_spec draw2 (m_sampleArray2D (base rs))
              (snd (refill_all uniformFloat (m_sampleArray1D (base rs)) (m_rng rs))))
    as [_ Hd2].
  apply (f_equal snd) in Hd1, Hd2. simpl in Hd1, Hd2.
  rewrite Hd2, Hd1, draws_draw2.
  replace (Z.to_nat _)
    with (length (mjoin (m_sampleArray1D (base rs)))
          + 2 * length (mjoin (m_sampleArray2D (base rs))))%nat by lia.
  now rewrite draws_app.
Qed.

(** The two cursors do not interfere: in a well-formed sampler whose
    sample index is not negative a 1D request followed by a 2D request
    gives the same two answers and the same state as the 2D request
    followed by the 1D one.  (At a negative sample index either
    request indexes its buffer before the start, and which of the two
    does so first depends on the order.) *)
Theorem array_requests_commute (n1 n2 : Z) (s : Sampler Float) :
  well_formed s -> 0 <= m_currentPixelSampleIndex s ->
  one_then_two n1 n2 s = two_then_one n1 n2 s.
Proof.
  intros Hwf Hi.
  pose proof (getArray_defined OneD n1 s Hwf Hi) as Hd1.
  pose proof (getArray_defined TwoD n2 s Hwf Hi) as Hd2. clear Hwf Hi.
  destruct s as [spp px i o1 o2 z1 z2 a1 a2].
  unfold one_then_two, two_then_one, getArray, get1DArray, get2DArray in *.
  cbn [samplesPerPixel m_currentPixel m_currentPixelSampleIndex m_array1DOffset
       m_array2DOffset m_samples1DArraySizes m_samples2DArraySizes
       m_sampleArray1D m_sampleArray2D] in *.
  revert Hd1 Hd2.
  destruct (decide (o1 = length a1)) as [D1|D1];
    destruct (decide (o2 = length a2)) as [D2|D2];
    (destruct (z1 !! o1) as [size1|] eqn:E1;
       [destruct (size1 =? n1) eqn:B1|]);
    (destruct (z2 !! o2) as [size2|] eqn:E2;
       [destruct (size2 =? n2) eqn:B2|]);
    destruct (i <? spp) eqn:B3;
    destruct (element_address a1 o1 (i * n1)) as [[p1|]| |] eqn:A1;
    destruct (element_address a2 o2 (i * n2)) as [[p2|]| |] eqn:A2;
    try done;
    repeat (cbn [and_then negb samplesPerPixel m_currentPixel
                 m_currentPixelSampleIndex m_array1DOffset m_array2DOffset
                 m_samples1DArraySizes m_samples2DArraySizes
                 m_sampleArray1D m_sampleArray2D];
            rewrite ?E1, ?E2, ?B1, ?B2, ?B3, ?A1, ?A2;
            rewrite ?(decide_True _ _ D1), ?(decide_False _ _ D1),
              ?(decide_True _ _ D2), ?(decide_False _ _ D2));
    done.
Qed.
End sampler_protocol.

Lemma arrays_served_in_registration_order_witness :
  exists s',
    serve_arrays OneD ([4; 2] ++ [7])
      (mkSampler 2 (0, 0) 1 0 0 [4; 2] [] [replicate 8 0; replicate 4 0] [])
    = Done (imap (fun i n => Some (mkView i (1 * n))) [4; 2]
            ++ replicate (length [7]) None, s')
    /\ cursor OneD s' = 2%nat.
Proof.
  apply (arrays_served_in_registration_order OneD [7]
           (mkSampler 2 (0, 0) 1 0 0 [4; 2] [] [replicate 8 0; replicate 4 0] [])).
  - split; repeat constructor.
  - reflexivity.
  - repeat (constructor; [lia|]). constructor.
  - simpl. lia.
Defined.

Lemma getters_abort_after_last_sample_witness :
  get1D (lift_base
           (mkRandomSampler
              (mkSampler 2 (0, 0) 1 1 0 [4] [] [replicate 8 0] []) 17)
           (snd (startNextSample
                   (mkSampler 2 (0, 0) 1 1 0 [4] [] [replicate 8 0] [])))) = Fatal
  /\ get2D (lift_base
              (mkRandomSampler
                 (mkSampler 2 (0, 0) 1 1 0 [4] [] [replicate 8 0] []) 17)
              (snd (startNextSample
                      (mkSampler 2 (0, 0) 1 1 0 [4] [] [replicate 8 0] [])))) = Fatal
  /\ getArray TwoD 3
       (base (lift_base
                (mkRandomSampler
                   (mkSampler 2 (0, 0) 1 1 0 [4] [] [replicate 8 0] []) 17)
                (snd (startNextSample
                        (mkSampler 2 (0, 0) 1 1 0 [4] [] [replicate 8 0] [])))))
     = Done (None,
             base (lift_base
                     (mkRandomSampler
                        (mkSampler 2 (0, 0) 1 1 0 [4] [] [replicate 8 0] []) 17)
                     (snd (startNextSample
                             (mkSampler 2 (0, 0) 1 1 0 [4] [] [replicate 8 0] []))))).
Proof.
  apply (getters_abort_after_last_sample
           (mkRandomSampler (mkSampler 2 (0, 0) 1 1 0 [4] [] [replicate 8 0] []) 17)
           TwoD 3).
  - split; repeat constructor.
  - reflexivity.
Defined.

Lemma startPixel_draw_count_witness :
  m_rng (RandomSampler_startPixel (3, 4)
           (mkRandomSampler
              (mkSampler 2 (0, 0) 0 0 0 [3] [1] [replicate 6 0] [replicate 2 (0, 0)]) 17))
  = snd (draws uniformFloat (Z.to_nat (2 * (total_size [3] + 2 * total_size [1]))) 17).
Proof.
  apply (startPixel_draw_count (3, 4)
           (mkRandomSampler
              (mkSampler 2 (0, 0) 0 0 0 [3] [1] [replicate 6 0] [replicate 2 (0, 0)]) 17)).
  split; repeat constructor.
Defined.

Lemma array_requests_commute_witness :
  one_then_two 4 2
    (mkSampler 2 (0, 0) 1 0 0 [4] [2] [replicate 8 0] [replicate 4 (0, 0)])
  = two_then_one 4 2
      (mkSampler 2 (0, 0) 1 0 0 [4] [2] [replicate 8 0] [replicate 4 (0, 0)]).
Proof.
  apply array_requests_commute; [|simpl; lia].
  repeat split; simpl; repeat constructor.
Defined.

(** The bound on the sample index is needed.  After
    [setSampleNumber(-1)] a 1D request with the registered size
    indexes its buffer at -4, while a 2D request with a wrong size
    aborts on its size check; which of the two happens depends on the
    order of the requests. *)
Example array_requests_order_shows_below_zero :
  let s := mkSampler 2 (0, 0) (-1) 0 0 [4] [2] [replicate 8 0] [replicate 4 (0, 0)] in
  well_formed s
  /\ one_then_two 4 3 s = Undefined
  /\ two_then_one 4 3 s = Fatal.
Proof.
  split_and!; [|reflexivity|reflexivity].
  repeat split; simpl; repeat constructor.
Qed.

(** ** The [Scene] constructor *)

Section scene_facts.
Context {LightData : Type}.
Variable LightInfinite : Z.
Variable preprocess : nat -> Scene -> LightStore LightData -> LightStore LightData.

Lemma scan_lights_sublist (pending : list nat) :
  forall (sc sc' : Scene) (store store' : LightStore LightData),
  scan_lights LightInfinite preprocess pending sc store = Some (sc', store') ->
  m_lights sc' = m_lights sc
  /\ exists added, m_infiniteLights sc' = m_infiniteLights sc ++ added
                   /\ added `sublist_of` pending.
Proof.
  induction pending as [|l pending IH]; intros sc sc' store store' H; simpl in H.
  - injection H as <- <-. split; [done|]. exists []. now rewrite app_nil_r.
  - destruct (preprocess l sc store !! l) as [x|]; [|done].
    apply IH in H as (Hl & added & Hinf & Hsub).
    destruct (Z.land (flags x) LightInfinite =? 0); simpl in *.
    + split; [done|]. exists added. split; [done|]. now apply sublist_cons.
    + split; [done|]. exists (l :: added). split.
      * now rewrite Hinf, <- app_assoc.
      * now apply sublist_skip.
Qed.

(** The constructed scene keeps the lights it was given, and its list
    of infinite lights picks some of them, in their order and none
    twice over, whatever the lights' [preprocess] does. *)
Theorem Scene_new_infinite_lights_sublist (lights : list nat)
    (store store' : LightStore LightData) (sc : Scene) :
  Scene_new LightInfinite preprocess lights store = Some (sc, store') ->
  m_lights sc = lights /\ m_infiniteLights sc `sublist_of` lights.
Proof.
  intros H. apply scan_lights_sublist in H as (Hl & added & Hinf & Hsub).
  simpl in *. now rewrite Hinf.
Qed.

Lemma scan_lights_filter (store0 : LightStore LightData) (pending : list nat) :
  (forall l sc st, flags <$> preprocess l sc st = flags <$> st) ->
  forall (sc sc' : Scene) (store store' : LightStore LightData),
  flags <$> store = flags <$> store0 ->
  scan_lights LightInfinite preprocess pending sc store = Some (sc', store') ->
  m_infiniteLights sc'
  = m_infiniteLights sc
    ++ filter (fun l => infinite_in LightInfinite store0 l = true) pending.
Proof.
  intros Hflags.
  induction pending as [|l pending IH]; intros sc sc' store store' Hst H; simpl in H.
  - injection H as <- <-. now rewrite filter_nil, app_nil_r.
  - destruct (preprocess l sc store !! l) as [x|] eqn:Hx; [|done].
    assert (Hst1 : flags <$> preprocess l sc store = flags <$> store0)
      by now rewrite Hflags.
    apply IH in H; [|done]. rewrite H, filter_cons. clear H IH.
    assert (Hin : infinite_in LightInfinite store0 l
                  = negb (Z.land (flags x) LightInfinite =? 0)).
    { unfold infinite_in, LightStore in *.
      apply (f_equal (fun fl => fl !! l)) in Hst1.
      rewrite !list_lookup_fmap, Hx in Hst1. simpl in Hst1.
      destruct (store0 !! l) as [y|]; [|done]. simpl in Hst1.
      now injection Hst1 as <-. }
    case_decide as Hd; rewrite Hin in Hd;
      destruct (Z.land (flags x) LightInfinite =? 0); simpl in *; try done.
    now rewrite <- app_assoc.
Qed.

(** When no [preprocess] changes a light's [flags], the scene's
    infinite lights are exactly the given lights that have the infinite
    bit set, in the order given. *)
Theorem Scene_new_infinite_lights (lights : list nat)
    (store store' : LightStore LightData) (sc : Scene) :
  (forall l sc st, flags <$> preprocess l sc st = flags <$> st) ->
  Scene_new LightInfinite preprocess lights store = Some (sc, store') ->
  m_infiniteLights sc
  = filter (fun l => infinite_in LightInfinite store l = true) lights.
Proof.
  intros Hflags H.
  now apply (scan_lights_filter store lights Hflags _ _ store store') in H.
Qed.
End scene_facts.

Lemma Scene_new_infinite_lights_sublist_witness :
  m_lights (mkScene [0; 1; 2]%nat [0; 2]%nat) = [0; 1; 2]%nat
  /\ m_infiniteLights (mkScene [0; 1; 2]%nat [0; 2]%nat) `sublist_of` [0; 1; 2]%nat.
Proof.
  apply (Scene_new_infinite_lights_sublist 8 (fun _ _ st => st) [0; 1; 2]%nat
           [mkLight 8 tt; mkLight 1 tt; mkLight 12 tt]
           [mkLight 8 tt; mkLight 1 tt; mkLight 12 tt]).
  reflexivity.
Defined.

Lemma Scene_new_infinite_lights_witness :
  m_infiniteLights (mkScene [0; 1; 2]%nat [0; 2]%nat)
  = filter (fun l => infinite_in 8 [mkLight 8 tt; mkLight 1 tt; mkLight 12 tt] l = true)
      [0; 1; 2]%nat.
Proof.
  apply (Scene_new_infinite_lights 8 (fun _ _ st => st) [0; 1; 2]%nat
           [mkLight 8 tt; mkLight 1 tt; mkLight 12 tt]
           [mkLight 8 tt; mkLight 1 tt; mkLight 12 tt]); [done | reflexivity].
Defined.

(** ** How the samples share a buffer *)

Lemma slices_tile {T : Type} (m k : nat) : forall buf : list T,
  length buf = (k * m)%nat ->
  mjoin ((fun i => take m (drop (i * m) buf)) <$> seq 0 k) = buf.
Proof.
  induction k as [|k IH]; intros buf Hlen.
  - now destruct buf.
  - rewrite <- cons_seq, fmap_cons, <- fmap_S_seq, <- list_fmap_compose.
    change (mjoin (?x :: ?l)) with (x ++ mjoin l).
    change (drop (0 * m) buf) with buf.
    transitivity (take m buf ++ drop m buf); [|apply take_drop].
    f_equal.
    transitivity (mjoin ((fun i => take m (drop (i * m) (drop m buf))) <$> seq 0 k));
      [|apply IH; rewrite length_drop; lia].
    f_equal. apply list_fmap_ext. intros i x _. simpl.
    now rewrite drop_drop.
Qed.

Section sample_slices.
Context {Float Rng : Type} `{!SamplerDeps Float Rng}.

Lemma drive_get1DArray_from (ns : list Z) :
  forall (pre : list Z) (rs : RandomSampler Float Rng),
  registries_ok (base rs) ->
  m_samples1DArraySizes (base rs) = pre ++ ns ->
  m_array1DOffset (base rs) = length pre ->
  Forall (Z.lt 0) ns ->
  0 <= m_currentPixelSampleIndex (base rs) < samplesPerPixel (base rs) ->
  drive (RGet1DArray <$> ns) rs
  = imap (fun k n =>
            Reply1DArray
              (read_view (m_sampleArray1D (base rs))
                 (mkView (length pre + k) (m_currentPixelSampleIndex (base rs) * n)) n))
      ns.
Proof.
  induction ns as [|n ns IH]; intros pre rs Hok Hsz Hc Hpos Hi; [done|].
  apply Forall_cons in Hpos as [Hn Hpos].
  assert (Hlook : recorded_sizes OneD (base rs) !! cursor OneD (base rs) = Some n).
  { simpl. rewrite Hsz, Hc. now rewrite lookup_app_r, Nat.sub_diag by lia. }
  assert (Hne : cursor OneD (base rs) <> registered OneD (base rs)).
  { rewrite <- (registered_sizes OneD _ Hok). simpl.
    rewrite Hsz, Hc, length_app. simpl. lia. }
  destruct (getArray_hit OneD n (base rs) Hok Hne Hlook Hn Hi) as [s1 Hget].
  destruct (getArray_Done OneD n (base rs) s1 _ Hget)
    as (Hspp & _ & Hidx & Hz1 & Hz2 & Ha1 & Ha2
        & [(? & _)|(_ & _ & _ & Hcur & _)]); [done|].
  destruct (returned_view_readable OneD n (base rs) s1 _ Hok (proj1 Hi) Hget)
    as (_ & len & Hlen & _ & H0 & Hfit).
  simpl in Hlen, Hget, Hcur, H0, Hfit. rewrite list_lookup_fmap in Hlen.
  destruct (m_sampleArray1D (base rs) !! m_array1DOffset (base rs))
    as [buf|] eqn:Hbuf; [|done].
  injection Hlen as <-.
  rewrite fmap_cons. cbn [drive serve]. rewrite Hget, Ha1.
  rewrite (read_view_in_bounds _ _ _ _ buf Hbuf) by lia.
  rewrite imap_cons, Nat.add_0_r, <- Hc.
  rewrite (read_view_in_bounds _ _ _ _ buf Hbuf) by lia.
  f_equal.
  assert (Hok1 : registries_ok s1).
  { destruct Hok as [H1 H2].
    split; rewrite ?Hspp, ?Hz1, ?Hz2, ?Ha1, ?Ha2; done. }
  rewrite (IH (pre ++ [n]) (lift_base rs s1)); simpl base.
  - rewrite Hidx, ?Ha1, ?Ha2. apply imap_ext. intros k x _. simpl.
    rewrite length_app. simpl. do 3 f_equal. lia.
  - done.
  - now rewrite ?Hz1, ?Hz2, Hsz, <- app_assoc.
  - rewrite Hcur, Hc, length_app. simpl. lia.
  - done.
  - now rewrite Hidx, Hspp.
Qed.

Lemma round_1D_replies (i : Z) (rs : RandomSampler Float Rng) :
  registries_ok (base rs) ->
  Forall (Z.lt 0) (m_samples1DArraySizes (base rs)) ->
  0 <= i < samplesPerPixel (base rs) ->
  round_1D i rs
  = ReplyBool true
      :: imap (fun a n =>
                 Reply1DArray
                   (read_view (m_sampleArray1D (base rs)) (mkView a (i * n)) n))
           (m_samples1DArraySizes (base rs)).
Proof.
  intros Hok Hpos Hi. unfold round_1D. cbn [drive serve].
  unfold setSampleNumber.
  replace (i <? samplesPerPixel (base rs)) with true
    by (symmetry; apply Z.ltb_lt; lia).
  f_equal.
  now rewrite (drive_get1DArray_from _ []).
Qed.

Lemma contents_1D_slice (a : nat) (i n : Z) (buf : list Float)
    (rs : RandomSampler Float Rng) :
  registries_ok (base rs) ->
  Forall (Z.lt 0) (m_samples1DArraySizes (base rs)) ->
  0 <= i < samplesPerPixel (base rs) ->
  m_samples1DArraySizes (base rs) !! a = Some n ->
  m_sampleArray1D (base rs) !! a = Some buf ->
  contents_1D a (round_1D i rs)
  = take (Z.to_nat n) (drop (Z.to_nat (i * n)) buf).
Proof.
  intros Hok Hpos Hi Hn Hbuf.
  pose proof (Forall_lookup_1 _ _ _ _ Hpos Hn) as Hn0.
  destruct Hok as [H1 H2].
  pose proof (Forall2_lookup_lr _ _ _ _ _ _ H1 Hn Hbuf) as Hlen.
  simpl in Hn0, Hlen.
  rewrite round_1D_replies by (done || by split).
  unfold contents_1D. rewrite lookup_cons. rewrite list_lookup_imap, Hn. simpl.
  now rewrite (read_view_in_bounds _ _ _ _ buf Hbuf) by nia.
Qed.

Lemma drive_get2DArray_from (ns : list Z) :
  forall (pre : list Z) (rs : RandomSampler Float Rng),
  registries_ok (base rs) ->
  m_samples2DArraySizes (base rs) = pre ++ ns ->
  m_array2DOffset (base rs) = length pre ->
  Forall (Z.lt 0) ns ->
  0 <= m_currentPixelSampleIndex (base rs) < samplesPerPixel (base rs) ->
  drive (RGet2DArray <$> ns) rs
  = imap (fun k n =>
            Reply2DArray
              (read_view (m_sampleArray2D (base rs))
                 (mkView (length pre + k) (m_currentPixelSampleIndex (base rs) * n)) n))
      ns.
Proof.
  induction ns as [|n ns IH]; intros pre rs Hok Hsz Hc Hpos Hi; [done|].
  apply Forall_cons in Hpos as [Hn Hpos].
  assert (Hlook : recorded_sizes TwoD (base rs) !! cursor TwoD (base rs) = Some n).
  { simpl. rewrite Hsz, Hc. now rewrite lookup_app_r, Nat.sub_diag by lia. }
  assert (Hne : cursor TwoD (base rs) <> registered TwoD (base rs)).
  { rewrite <- (registered_sizes TwoD _ Hok). simpl.
    rewrite Hsz, Hc, length_app. simpl. lia. }
  destruct (getArray_hit TwoD n (base rs) Hok Hne Hlook Hn Hi) as [s1 Hget].
  destruct (getArray_Done TwoD n (base rs) s1 _ Hget)
    as (Hspp & _ & Hidx & Hz1 & Hz2 & Ha1 & Ha2
        & [(? & _)|(_ & _ & _ & Hcur & _)]); [done|].
  destruct (returned_view_readable TwoD n (base rs) s1 _ Hok (proj1 Hi) Hget)
    as (_ & len & Hlen & _ & H0 & Hfit).
  simpl in Hlen, Hget, Hcur, H0, Hfit. rewrite list_lookup_fmap in Hlen.
  destruct (m_sampleArray2D (base rs) !! m_array2DOffset (base rs))
    as [buf|] eqn:Hbuf; [|done].
  injection Hlen as <-.
  rewrite fmap_cons. cbn [drive serve]. rewrite Hget, Ha2.
  rewrite (read_view_in_bounds _ _ _ _ buf Hbuf) by lia.
  rewrite imap_cons, Nat.add_0_r, <- Hc.
  rewrite (read_view_in_bounds _ _ _ _ buf Hbuf) by lia.
  f_equal.
  assert (Hok1 : registries_ok s1).
  { destruct Hok as [H1 H2].
    split; rewrite ?Hspp, ?Hz1, ?Hz2, ?Ha1, ?Ha2; done. }
  rewrite (IH (pre ++ [n]) (lift_base rs s1)); simpl base.
  - rewrite Hidx, ?Ha1, ?Ha2. apply imap_ext. intros k x _. simpl.
    rewrite length_app. simpl. do 3 f_equal. lia.
  - done.
  - now rewrite ?Hz1, ?Hz2, Hsz, <- app_assoc.
  - rewrite Hcur, Hc, length_app. simpl. lia.
  - done.
  - now rewrite Hidx, Hspp.
Qed.

Lemma round_2D_replies (i : Z) (rs : RandomSampler Float Rng) :
  registries_ok (base rs) ->
  Forall (Z.lt 0) (m_samples2DArraySizes (base rs)) ->
  0 <= i < samplesPerPixel (base rs) ->
  round_2D i rs
  = ReplyBool true
      :: imap (fun a n =>
                 Reply2DArray
                   (read_view (m_sampleArray2D (base rs)) (mkView a (i * n)) n))
           (m_samples2DArraySizes (base rs)).
Proof.
  intros Hok Hpos Hi. unfold round_2D. cbn [drive serve].
  unfold setSampleNumber.
  replace (i <? samplesPerPixel (base rs)) with true
    by (symmetry; apply Z.ltb_lt; lia).
  f_equal.
  now rewrite (drive_get2DArray_from _ []).
Qed.

Lemma contents_2D_slice (a : nat) (i n : Z) (buf : list Vector2f)
    (rs : RandomSampler Float Rng) :
  registries_ok (base rs) ->
  Forall (Z.lt 0) (m_samples2DArraySizes (base rs)) ->
  0 <= i < samplesPerPixel (base rs) ->
  m_samples2DArraySizes (base rs) !! a = Some n ->
  m_sampleArray2D (base rs) !! a = Some buf ->
  contents_2D a (round_2D i rs)
  = take (Z.to_nat n) (drop (Z.to_nat (i * n)) buf).
Proof.
  intros Hok Hpos Hi Hn Hbuf.
  pose proof (Forall_lookup_1 _ _ _ _ Hpos Hn) as Hn0.
  destruct Hok as [H1 H2].
  pose proof (Forall2_lookup_lr _ _ _ _ _ _ H2 Hn Hbuf) as Hlen.
  simpl in Hn0, Hlen.
  rewrite round_2D_replies by (done || by split).
  unfold contents_2D. rewrite lookup_cons. rewrite list_lookup_imap, Hn. simpl.
  now rewrite (read_view_in_bounds _ _ _ _ buf Hbuf) by nia.
Qed.

Lemma rounds_tile_buffers (rs : RandomSampler Float Rng) :
  registries_ok (base rs) ->
  Forall (Z.lt 0) (m_samples1DArraySizes (base rs)) ->
  Forall (Z.lt 0) (m_samples2DArraySizes (base rs)) ->
  (forall (a : nat) (buf : list Float),
     m_sampleArray1D (base rs) !! a = Some buf ->
     mjoin ((fun i => contents_1D a (round_1D i rs))
              <$> seqZ 0 (samplesPerPixel (base rs))) = buf)
  /\ (forall (a : nat) (buf : list Vector2f),
        m_sampleArray2D (base rs) !! a = Some buf ->
        mjoin ((fun i => contents_2D a (round_2D i rs))
                 <$> seqZ 0 (samplesPerPixel (base rs))) = buf).
Proof.
  intros Hok Hpos1 Hpos2. split; intros a buf Hbuf.
  - destruct (Forall2_lookup_r _ _ _ _ _ (proj1 Hok) Hbuf) as (n & Hn & Hlen).
    pose proof (Forall_lookup_1 _ _ _ _ Hpos1 Hn) as Hn0. simpl in Hn0, Hlen.
    transitivity (mjoin ((fun i => take (Z.to_nat n) (drop (i * Z.to_nat n) buf))
                           <$> seq 0 (Z.to_nat (samplesPerPixel (base rs)))));
      [|apply slices_tile; nia].
    f_equal. unfold seqZ. rewrite <- list_fmap_compose.
    apply list_fmap_ext. intros k x Hx. simpl.
    apply lookup_seq in Hx as [-> Hk].
    rewrite (contents_1D_slice a _ n buf) by (done || lia).
    do 2 f_equal. nia.
  - destruct (Forall2_lookup_r _ _ _ _ _ (proj2 Hok) Hbuf) as (n & Hn & Hlen).
    pose proof (Forall_lookup_1 _ _ _ _ Hpos2 Hn) as Hn0. simpl in Hn0, Hlen.
    transitivity (mjoin ((fun i => take (Z.to_nat n) (drop (i * Z.to_nat n) buf))
                           <$> seq 0 (Z.to_nat (samplesPerPixel (base rs)))));
      [|apply slices_tile; nia].
    f_equal. unfold seqZ. rewrite <- list_fmap_compose.
    apply list_fmap_ext. intros k x Hx. simpl.
    apply lookup_seq in Hx as [-> Hk].
    rewrite (contents_2D_slice a _ n buf) by (done || lia).
    do 2 f_equal. nia.
Qed.

Lemma requestArray_positive (d : Dimension) (n : Z) (s s' : Sampler Float) :
  requestArray d n s = Done s' -> 0 < n ->
  Forall (Z.lt 0) (m_samples1DArraySizes s)
  /\ Forall (Z.lt 0) (m_samples2DArraySizes s) ->
  Forall (Z.lt 0) (m_samples1DArraySizes s')
  /\ Forall (Z.lt 0) (m_samples2DArraySizes s').
Proof.
  intros H Hn [H1 H2].
  destruct d; simpl in H; unfold request1DArray, request2DArray in H;
    destruct (negb _); try done;
    destruct (new_buffer _ _) as [buf| |]; try done;
    injection H as <-; simpl; split; try done;
    apply Forall_app; split; try done; by constructor.
Qed.

Lemma register_all_positive (regs : list (Dimension * Z)) :
  forall s s' : Sampler Float,
  register_all regs s = Done s' ->
  Forall (fun reg : Dimension * Z => 0 < snd reg) regs ->
  Forall (Z.lt 0) (m_samples1DArraySizes s)
  /\ Forall (Z.lt 0) (m_samples2DArraySizes s) ->
  Forall (Z.lt 0) (m_samples1DArraySizes s')
  /\ Forall (Z.lt 0) (m_samples2DArraySizes s').
Proof.
  induction regs as [|[d n] regs IH]; intros s s' H Hpos Hs; simpl in H.
  - now injection H as <-.
  - apply Forall_cons in Hpos as [Hn Hpos].
    destruct (requestArray d n s) as [s1| |] eqn:Hreq; try done.
    apply (IH s1 s' H Hpos). now apply (requestArray_positive d n s s1 Hreq).
Qed.

(** Over the samples of a pixel the arrays a caller is handed are the
    consecutive slices of the registered buffers.  Take a sampler that
    was constructed, had arrays of positive sizes registered with
    [request1DArray] / [request2DArray], and was given a pixel with
    [startPixel].  For every sample index [i] the caller calls
    [setSampleNumber(i)] and asks for each registered array in turn
    with its registered size, reading that many elements through the
    pointer [get1DArray] / [get2DArray] returns.  Then what was read
    from array [a] in samples 0, 1, 2, ... put end to end is exactly
    buffer [a] as [startPixel] filled it: sample 0 gets its first [n]
    elements, sample 1 the next [n], and so on, so no element is
    shared between two samples and none is left unused. *)
Theorem sample_arrays_tile_buffers (spp seed : Z)
    (uninit : Vector2i * Z * nat * nat) (regs : list (Dimension * Z))
    (s : Sampler Float) (r : Rng) (p : Vector2i) :
  Forall (fun reg : Dimension * Z => 0 < snd reg) regs ->
  register_all regs (base (RandomSampler_new spp seed uninit)) = Done s ->
  let rs := RandomSampler_startPixel p (mkRandomSampler s r) in
  (forall (a : nat) (buf : list Float),
     m_sampleArray1D (base rs) !! a = Some buf ->
     mjoin ((fun i => contents_1D a (round_1D i rs))
              <$> seqZ 0 (samplesPerPixel (base rs))) = buf)
  /\ (forall (a : nat) (buf : list Vector2f),
        m_sampleArray2D (base rs) !! a = Some buf ->
        mjoin ((fun i => contents_2D a (round_2D i rs))
                 <$> seqZ 0 (samplesPerPixel (base rs))) = buf).
Proof.
  intros Hpos Hreg rs.
  assert (Hok : registries_ok s).
  { apply (register_all_keeps regs _ s Hreg). exact (registries_ok_new spp uninit). }
  assert (Hsizes : Forall (Z.lt 0) (m_samples1DArraySizes s)
                   /\ Forall (Z.lt 0) (m_samples2DArraySizes s)).
  { apply (register_all_positive regs _ s Hreg Hpos).
    destruct uninit as [[[? ?] ?] ?]. split; constructor. }
  apply rounds_tile_buffers.
  - apply (well_formed_RandomSampler_startPixel p (mkRandomSampler s r)), Hok.
  - subst rs. rewrite RandomSampler_startPixel_eq. apply Hsizes.
  - subst rs. rewrite RandomSampler_startPixel_eq. apply Hsizes.
Qed.
End sample_slices.

Lemma sample_arrays_tile_buffers_witness :
  let rs := RandomSampler_startPixel (5, 7)
              (mkRandomSampler
                 (mkSampler 3 (0, 0) 0 0 0 [2] [1]
                    [replicate 6 0] [replicate 3 (0, 0)]) 17) in
  (forall (a : nat) (buf : list Z),
     m_sampleArray1D (base rs) !! a = Some buf ->
     mjoin ((fun i => contents_1D a (round_1D i rs))
              <$> seqZ 0 (samplesPerPixel (base rs))) = buf)
  /\ (forall (a : nat) (buf : list (Z * Z)),
        m_sampleArray2D (base rs) !! a = Some buf ->
        mjoin ((fun i => contents_2D a (round_2D i rs))
                 <$> seqZ 0 (samplesPerPixel (base rs))) = buf).
Proof.
  apply (sample_arrays_tile_buffers 3 1 ((0, 0), 0, 0%nat, 0%nat)
           [(OneD, 2); (TwoD, 1)]).
  - repeat (constructor; [simpl; lia|]). constructor.
  - reflexivity.
Defined.
